(** * Genius_loci front-end: a shallow embedding of [api.js] and [script.js]

    The development models the browser program as an event-driven state
    machine.  JavaScript strings are kept as byte strings holding the UTF-8
    encoding of the source literals, decoded JSON documents as a small value
    type, thrown errors as records with a name and a message, and every
    suspension point of the program ([await], [setTimeout], [FileReader]) as
    a pending task that an event later resumes with the environment's
    answer. *)

From Stdlib Require Import ZArith Lia Bool.
From stdpp Require Import base list strings.

Local Open Scope string_scope.
Local Open Scope list_scope.

(** ** JavaScript values that reach the program *)

Module Js.

(** A thrown value.  Every value the program or the platform throws here is
    an [Error] object, observed through its [name] and [message]. *)
Record exn := mkExn { name : string; message : string }.

(** [new Error(msg)] *)
Definition Error (msg : string) : exn := mkExn "Error" msg.

(** The [TypeError] of a property read on [null] or [undefined], and of a
    call of something that is not a function (wording of V8; the program
    never reads these messages). *)
Definition TypeError_read (base key : string) : exn :=
  mkExn "TypeError"
    ("Cannot read properties of " +:+ base +:+ " (reading '" +:+ key +:+ "')").
Definition TypeError_call (what : string) : exn :=
  mkExn "TypeError" (what +:+ " is not a function").

(** The [TypeError] of converting an object that has no usable [toString]
    or [valueOf], and the [ReferenceError] of a name that is not defined. *)
Definition TypeError_primitive : exn :=
  mkExn "TypeError" "Cannot convert object to primitive value".
Definition ReferenceError (name : string) : exn :=
  mkExn "ReferenceError" (name +:+ " is not defined").

(** A decoded JSON document, plus [undefined] for absent properties.  A
    number is carried by the two observations the program makes of it: its
    [ToString] rendering and whether it is truthy (neither zero nor NaN). *)
#[warnings="-register-all"]
Inductive value :=
  | VUndefined
  | VNull
  | VBool (b : bool)
  | VNum (repr : string) (nonzero : bool)
  | VStr (s : string)
  | VArr (elts : list value)
  | VObj (props : list (string * value)).

(** Outcome of evaluating an expression or of awaiting a promise. *)
Inductive completion (A : Type) :=
  | Normal (a : A)
  | Throw (e : exn).
Arguments Normal {A} a.
Arguments Throw {A} e.

Definition bind {A B} (c : completion A) (k : A -> completion B) : completion B :=
  match c with
  | Normal a => k a
  | Throw e => Throw e
  end.

(** [try { body } catch (error) { handler }] *)
Definition try_catch {A} (body : completion A) (handler : exn -> completion A)
  : completion A :=
  match body with
  | Normal a => Normal a
  | Throw e => handler e
  end.

(** ToBoolean *)
Definition truthy (v : value) : bool :=
  match v with
  | VUndefined | VNull => false
  | VBool b => b
  | VNum _ nonzero => nonzero
  | VStr s => negb (String.eqb s "")
  | VArr _ | VObj _ => true
  end.

(** The pieces of a [join], converted from left to right: the first
    conversion that throws ends it. *)
Fixpoint join_strings (sep : string) (l : list (completion string))
  : completion string :=
  match l with
  | [] => Normal ""
  | [x] => x
  | x :: r =>
      match x with
      | Throw e => Throw e
      | Normal a =>
          match join_strings sep r with
          | Throw e => Throw e
          | Normal b => Normal (a +:+ sep +:+ b)
          end
      end
  end.

(** An object decoded from JSON lists each of its keys once. *)
Fixpoint lookup_prop (key : string) (props : list (string * value)) : value :=
  match props with
  | [] => VUndefined
  | (k, v) :: rest => if String.eqb k key then v else lookup_prop key rest
  end.

Fixpoint has_own (key : string) (props : list (string * value)) : bool :=
  match props with
  | [] => false
  | (k, _) :: rest => String.eqb k key || has_own key rest
  end.

(** ToString.  A decoded object holds no function, so it converts through
    [Object.prototype.toString], to ["[object Object]"], unless a property
    of its own named [toString] hides that method: then neither [toString]
    nor [valueOf] gives a primitive and the conversion throws.  An array
    converts through [join]. *)
Fixpoint ToString (v : value) : completion string :=
  match v with
  | VUndefined => Normal "undefined"
  | VNull => Normal "null"
  | VBool true => Normal "true"
  | VBool false => Normal "false"
  | VNum repr _ => Normal repr
  | VStr s => Normal s
  | VArr elts =>
      join_strings ","
        (map (fun x => match x with
                       | VUndefined | VNull => Normal ""
                       | _ => ToString x
                       end) elts)
  | VObj props =>
      if has_own "toString" props then Throw TypeError_primitive
      else Normal "[object Object]"
  end.

(** [Array.prototype.join]: [undefined] and [null] elements print as the
    empty string. *)
Definition Array_join (sep : string) (elts : list value) : completion string :=
  join_strings sep
    (map (fun x => match x with
                   | VUndefined | VNull => Normal ""
                   | _ => ToString x
                   end) elts).

(** [v.key] for the property names the program reads ([status], [error],
    [success], [description], [objects], [join]): none of them is defined
    on the prototypes of strings, numbers, booleans or arrays. *)
Definition get (v : value) (key : string) : completion value :=
  match v with
  | VUndefined => Throw (TypeError_read "undefined" key)
  | VNull => Throw (TypeError_read "null" key)
  | VObj props => Normal (lookup_prop key props)
  | _ => Normal VUndefined
  end.

(** [a || b] *)
Definition or_else (a b : value) : value := if truthy a then a else b.

(** [a === 'lit'] *)
Definition strict_eq_str (a : value) (lit : string) : bool :=
  match a with
  | VStr s => String.eqb s lit
  | _ => false
  end.

End Js.

Import Js.

Declare Scope js_scope.
Delimit Scope js_scope with js.
Notation "'let*' x ':=' c 'in' k" := (bind c (fun x => k))
  (at level 10, x name, c at level 100, k at level 200) : js_scope.
Local Open Scope js_scope.

(** ** [String.prototype] methods used by the program *)

Module JsString.

(** [s.startsWith(p)] *)
Fixpoint startsWith (p s : string) {struct p} : bool :=
  match p with
  | EmptyString => true
  | String a p' =>
      match s with
      | EmptyString => false
      | String b s' => Ascii.eqb a b && startsWith p' s'
      end
  end.

(** [s.includes(key)] *)
Fixpoint includes (key s : string) : bool :=
  startsWith key s ||
  match s with
  | EmptyString => false
  | String _ rest => includes key rest
  end.

Fixpoint of_bytes (codes : list nat) : string :=
  match codes with
  | [] => EmptyString
  | c :: rest => String (Ascii.ascii_of_nat c) (of_bytes rest)
  end.

(** The code points [trim] removes (ECMAScript WhiteSpace and
    LineTerminator), each as its UTF-8 byte sequence. *)
Definition WhiteSpace : list string :=
  map of_bytes
    [ [0x09]; [0x0A]; [0x0B]; [0x0C]; [0x0D]; [0x20];
      [0xC2; 0xA0];                       (* U+00A0 *)
      [0xE1; 0x9A; 0x80];                 (* U+1680 *)
      [0xE2; 0x80; 0x80]; [0xE2; 0x80; 0x81]; [0xE2; 0x80; 0x82];
      [0xE2; 0x80; 0x83]; [0xE2; 0x80; 0x84]; [0xE2; 0x80; 0x85];
      [0xE2; 0x80; 0x86]; [0xE2; 0x80; 0x87]; [0xE2; 0x80; 0x88];
      [0xE2; 0x80; 0x89]; [0xE2; 0x80; 0x8A];  (* U+2000 .. U+200A *)
      [0xE2; 0x80; 0xA8]; [0xE2; 0x80; 0xA9];  (* U+2028, U+2029 *)
      [0xE2; 0x80; 0xAF];                 (* U+202F *)
      [0xE2; 0x81; 0x9F];                 (* U+205F *)
      [0xE3; 0x80; 0x80];                 (* U+3000 *)
      [0xEF; 0xBB; 0xBF] ].               (* U+FEFF *)

Fixpoint drop_chars (n : nat) (s : string) : string :=
  match n, s with
  | S n', String _ rest => drop_chars n' rest
  | _, _ => s
  end.

Fixpoint reverse_onto (s acc : string) : string :=
  match s with
  | EmptyString => acc
  | String c rest => reverse_onto rest (String c acc)
  end.
Definition reverse (s : string) : string := reverse_onto s "".

(** Removes one leading sequence of [table], if [s] starts with one. *)
Fixpoint strip_one (table : list string) (s : string) : option string :=
  match table with
  | [] => None
  | w :: rest =>
      if startsWith w s then Some (drop_chars (String.length w) s)
      else strip_one rest s
  end.

Fixpoint strip_all (fuel : nat) (table : list string) (s : string) : string :=
  match fuel with
  | O => s
  | S fuel' =>
      match strip_one table s with
      | Some rest => strip_all fuel' table rest
      | None => s
      end
  end.

Definition trimStart (s : string) : string :=
  strip_all (String.length s) WhiteSpace s.

Definition trimEnd (s : string) : string :=
  reverse (strip_all (String.length s) (map reverse WhiteSpace) (reverse s)).

(** [s.trim()] *)
Definition trim (s : string) : string := trimEnd (trimStart s).

(** A string made of white space only: a concatenation of the sequences of
    [WhiteSpace]. *)
Inductive WhiteSpaceOnly : string -> Prop :=
  | ws_empty : WhiteSpaceOnly ""
  | ws_more w s : In w WhiteSpace -> WhiteSpaceOnly s -> WhiteSpaceOnly (w +:+ s).

End JsString.

Import JsString.

Example trim_keeps_inner : trim ("  你 好" +:+ of_bytes [0x0A; 0xE3; 0x80; 0x80]) = "你 好".
Proof. reflexivity. Qed.

(** ** api.js *)

Module Api.

Module Endpoints.
Record t := { identify : string; chat : string; health : string }.
End Endpoints.

Record config := { baseURL : string; endpoints : Endpoints.t }.

Definition API_CONFIG : config :=
  {| baseURL := "http://localhost:5000";
     endpoints := {| Endpoints.identify := "/api/identify";
                     Endpoints.chat := "/api/chat";
                     Endpoints.health := "/health" |} |}.

(** An [APIClient] instance: the two fields its constructor copies from the
    configuration. *)
Record APIClient := { this_baseURL : string; this_endpoints : Endpoints.t }.

Definition new_APIClient (cfg : config) : APIClient :=
  {| this_baseURL := baseURL cfg; this_endpoints := endpoints cfg |}.

(** The arguments of a [fetch] call.  The body is kept as the object handed
    to [JSON.stringify]. *)
Record request := {
  url : string;
  method : string;
  headers : list (string * string);
  body : option value
}.

(** What a [fetch] promise resolves to, as far as the program looks:
    [response.ok] and the outcome of [response.json()]. *)
Record response := { ok : bool; json : completion value }.

(** An async method of the client up to and after its [await fetch(...)]:
    the request it sends and what it does with the settled promise. *)
Inductive async (A : Type) :=
  | Await (req : request) (resume : completion response -> completion A).
Arguments Await {A} req resume.

Definition sent {A} (a : async A) : request :=
  match a with Await req _ => req end.
Definition settle {A} (a : async A) (fetched : completion response) : completion A :=
  match a with Await _ resume => resume fetched end.

Definition checkHealth (this : APIClient) : async value :=
  Await
    {| url := this_baseURL this +:+ Endpoints.health (this_endpoints this);
       method := "GET"; headers := []; body := None |}
    (fun fetched =>
       try_catch
         (let* response := fetched in
          let* data := json response in
          Normal data)
         (fun error =>
            Normal (VObj [("status", VStr "error");
                          ("error", VStr (message error))]))).

Definition identifyImage (this : APIClient) (imageBase64 text : string)
  : async value :=
  Await
    {| url := this_baseURL this +:+ Endpoints.identify (this_endpoints this);
       method := "POST";
       headers := [("Content-Type", "application/json")];
       body := Some (VObj [("image", VStr imageBase64); ("text", VStr text)]) |}
    (fun fetched =>
       try_catch
         (let* response := fetched in
          let* data := json response in
          if negb (ok response) then
            let* server_error := get data "error" in
            let* reason := ToString (or_else server_error (VStr "识别失败")) in
            Throw (Error reason)
          else Normal data)
         (fun error => Throw error)).

Definition chat (this : APIClient) (message : string) (imageBase64 : value)
    (context : string) : async value :=
  let payload := [("message", VStr message); ("context", VStr context)] in
  let payload :=
    if truthy imageBase64 then payload ++ [("image", imageBase64)] else payload in
  Await
    {| url := this_baseURL this +:+ Endpoints.chat (this_endpoints this);
       method := "POST";
       headers := [("Content-Type", "application/json")];
       body := Some (VObj payload) |}
    (fun fetched =>
       try_catch
         (let* response := fetched in
          let* data := json response in
          if negb (ok response) then
            let* server_error := get data "error" in
            let* reason := ToString (or_else server_error (VStr "聊天失败")) in
            Throw (Error reason)
          else Normal data)
         (fun error => Throw error)).

End Api.

Import Api.

(** ** The page: state of script.js and of the document *)

Module Page.

(** A child of [chatMessages]: the class chosen from [type], the
    [textContent] of the span, and the [src] of the image when there is one. *)
Inductive sender := user | spirit.
Record chat_message := {
  origin : sender;
  text : string;
  image : option string
}.

(** A [MediaStreamTrack]: [stopped] stands for [readyState === 'ended']. *)
Record track := { kind : string; enabled : bool; stopped : bool }.

(** A [File] of a file list. *)
Record file := { file_name : string; type : string }.

(** The click listeners the program registers on a use-photo button:
    [usePhoto] itself, or one of the arrow functions of [handleFiles] that
    call [useUploadedPhoto(imageData)].  Each registration is a distinct
    function object, so [addEventListener] never discards one as a
    duplicate. *)
Inductive listener :=
  | usePhoto_listener
  | useUploadedPhoto_listener (imageData : string).

(** Suspended callbacks: the rest of an async function after its [await],
    a [setTimeout] callback, a [FileReader.onload] handler, with the values
    its closure captured.  The timers that only reset a CSS transform and
    the CSS classes of the drop zone are not modelled. *)
Inductive task :=
  | initAPI_await (client : APIClient)
  | initCamera_await
  | getCurrentPosition_callback
  | sendMessage_timeout (message : string)
  | usePhoto_await (client : APIClient) (imageData : string)
  | usePhoto_timeout
  | useUploadedPhoto_await (client : APIClient) (imageData : string)
  | useUploadedPhoto_timeout
  | reader_onload (f : file) (index : nat)
  | handleFiles_timeout (imageData : string) (index : nat).

(** What the environment hands to a resumed callback. *)
Inductive answer :=
  | Fetched (r : completion response)
      (* a [fetch] promise settled *)
  | Random (draw : Z)
      (* a timer fired and the callback's [Math.random()] returns
         [draw / 2^53] *)
  | Elapsed
      (* a timer fired *)
  | Media (r : completion (list string))
      (* [getUserMedia] settled: the kinds of the tracks of the new stream,
         or the error *)
  | Located (r : nat + string * string)
      (* [getCurrentPosition]: the error code, or latitude and longitude
         as printed by [toFixed(4)] *)
  | Loaded (result : option string).
      (* a [FileReader] finished: the data URL, or nothing on a read error *)

Record state := {
  (* script.js globals *)
  currentStream : option (list track);
  apiClient : option APIClient;
  (* the DOM: [classList] of the two screens and of the photo modal *)
  homeScreen_active : bool;
  chatScreen_active : bool;
  photoModal_active : bool;
  (* [capturedPhoto.src], [chatInput.value], children of [chatMessages] *)
  capturedPhoto_src : string;
  chatInput_value : string;
  chatMessages : list chat_message;
  locationText : string;
  (* the use-photo button elements ever created, by handle, each with its
     click listeners; handle [usePhotoBtn] is the one found at load time *)
  buttons : list (list listener);
  (* handle of the element in the document with id [use-photo-btn] *)
  use_photo_btn : nat;
  (* the environment: [alert] calls made, [fetch] calls made, suspended
     callbacks *)
  alerts : list string;
  requests : list request;
  pending : list task
}.

Definition upd_currentStream (f : option (list track) -> option (list track)) (s : state) : state :=
  {| currentStream := f (currentStream s); apiClient := apiClient s;
     homeScreen_active := homeScreen_active s;
     chatScreen_active := chatScreen_active s;
     photoModal_active := photoModal_active s;
     capturedPhoto_src := capturedPhoto_src s;
     chatInput_value := chatInput_value s; chatMessages := chatMessages s;
     locationText := locationText s; buttons := buttons s;
     use_photo_btn := use_photo_btn s; alerts := alerts s;
     requests := requests s; pending := pending s |}.
Definition upd_apiClient (f : option APIClient -> option APIClient) (s : state) : state :=
  {| currentStream := currentStream s; apiClient := f (apiClient s);
     homeScreen_active := homeScreen_active s;
     chatScreen_active := chatScreen_active s;
     photoModal_active := photoModal_active s;
     capturedPhoto_src := capturedPhoto_src s;
     chatInput_value := chatInput_value s; chatMessages := chatMessages s;
     locationText := locationText s; buttons := buttons s;
     use_photo_btn := use_photo_btn s; alerts := alerts s;
     requests := requests s; pending := pending s |}.
Definition upd_homeScreen_active (f : bool -> bool) (s : state) : state :=
  {| currentStream := currentStream s; apiClient := apiClient s;
     homeScreen_active := f (homeScreen_active s);
     chatScreen_active := chatScreen_active s;
     photoModal_active := photoModal_active s;
     capturedPhoto_src := capturedPhoto_src s;
     chatInput_value := chatInput_value s; chatMessages := chatMessages s;
     locationText := locationText s; buttons := buttons s;
     use_photo_btn := use_photo_btn s; alerts := alerts s;
     requests := requests s; pending := pending s |}.
Definition upd_chatScreen_active (f : bool -> bool) (s : state) : state :=
  {| currentStream := currentStream s; apiClient := apiClient s;
     homeScreen_active := homeScreen_active s;
     chatScreen_active := f (chatScreen_active s);
     photoModal_active := photoModal_active s;
     capturedPhoto_src := capturedPhoto_src s;
     chatInput_value := chatInput_value s; chatMessages := chatMessages s;
     locationText := locationText s; buttons := buttons s;
     use_photo_btn := use_photo_btn s; alerts := alerts s;
     requests := requests s; pending := pending s |}.
Definition upd_photoModal_active (f : bool -> bool) (s : state) : state :=
  {| currentStream := currentStream s; apiClient := apiClient s;
     homeScreen_active := homeScreen_active s;
     chatScreen_active := chatScreen_active s;
     photoModal_active := f (photoModal_active s);
     capturedPhoto_src := capturedPhoto_src s;
     chatInput_value := chatInput_value s; chatMessages := chatMessages s;
     locationText := locationText s; buttons := buttons s;
     use_photo_btn := use_photo_btn s; alerts := alerts s;
     requests := requests s; pending := pending s |}.
Definition upd_capturedPhoto_src (f : string -> string) (s : state) : state :=
  {| currentStream := currentStream s; apiClient := apiClient s;
     homeScreen_active := homeScreen_active s;
     chatScreen_active := chatScreen_active s;
     photoModal_active := photoModal_active s;
     capturedPhoto_src := f (capturedPhoto_src s);
     chatInput_value := chatInput_value s; chatMessages := chatMessages s;
     locationText := locationText s; buttons := buttons s;
     use_photo_btn := use_photo_btn s; alerts := alerts s;
     requests := requests s; pending := pending s |}.
Definition upd_chatInput_value (f : string -> string) (s : state) : state :=
  {| currentStream := currentStream s; apiClient := apiClient s;
     homeScreen_active := homeScreen_active s;
     chatScreen_active := chatScreen_active s;
     photoModal_active := photoModal_active s;
     capturedPhoto_src := capturedPhoto_src s;
     chatInput_value := f (chatInput_value s);
     chatMessages := chatMessages s; locationText := locationText s;
     buttons := buttons s; use_photo_btn := use_photo_btn s;
     alerts := alerts s; requests := requests s; pending := pending s |}.
Definition upd_chatMessages (f : list chat_message -> list chat_message) (s : state) : state :=
  {| currentStream := currentStream s; apiClient := apiClient s;
     homeScreen_active := homeScreen_active s;
     chatScreen_active := chatScreen_active s;
     photoModal_active := photoModal_active s;
     capturedPhoto_src := capturedPhoto_src s;
     chatInput_value := chatInput_value s;
     chatMessages := f (chatMessages s); locationText := locationText s;
     buttons := buttons s; use_photo_btn := use_photo_btn s;
     alerts := alerts s; requests := requests s; pending := pending s |}.
Definition upd_locationText (f : string -> string) (s : state) : state :=
  {| currentStream := currentStream s; apiClient := apiClient s;
     homeScreen_active := homeScreen_active s;
     chatScreen_active := chatScreen_active s;
     photoModal_active := photoModal_active s;
     capturedPhoto_src := capturedPhoto_src s;
     chatInput_value := chatInput_value s; chatMessages := chatMessages s;
     locationText := f (locationText s); buttons := buttons s;
     use_photo_btn := use_photo_btn s; alerts := alerts s;
     requests := requests s; pending := pending s |}.
Definition upd_buttons (f : list (list listener) -> list (list listener)) (s : state) : state :=
  {| currentStream := currentStream s; apiClient := apiClient s;
     homeScreen_active := homeScreen_active s;
     chatScreen_active := chatScreen_active s;
     photoModal_active := photoModal_active s;
     capturedPhoto_src := capturedPhoto_src s;
     chatInput_value := chatInput_value s; chatMessages := chatMessages s;
     locationText := locationText s; buttons := f (buttons s);
     use_photo_btn := use_photo_btn s; alerts := alerts s;
     requests := requests s; pending := pending s |}.
Definition upd_use_photo_btn (f : nat -> nat) (s : state) : state :=
  {| currentStream := currentStream s; apiClient := apiClient s;
     homeScreen_active := homeScreen_active s;
     chatScreen_active := chatScreen_active s;
     photoModal_active := photoModal_active s;
     capturedPhoto_src := capturedPhoto_src s;
     chatInput_value := chatInput_value s; chatMessages := chatMessages s;
     locationText := locationText s; buttons := buttons s;
     use_photo_btn := f (use_photo_btn s); alerts := alerts s;
     requests := requests s; pending := pending s |}.
Definition upd_alerts (f : list string -> list string) (s : state) : state :=
  {| currentStream := currentStream s; apiClient := apiClient s;
     homeScreen_active := homeScreen_active s;
     chatScreen_active := chatScreen_active s;
     photoModal_active := photoModal_active s;
     capturedPhoto_src := capturedPhoto_src s;
     chatInput_value := chatInput_value s; chatMessages := chatMessages s;
     locationText := locationText s; buttons := buttons s;
     use_photo_btn := use_photo_btn s; alerts := f (alerts s);
     requests := requests s; pending := pending s |}.
Definition upd_requests (f : list request -> list request) (s : state) : state :=
  {| currentStream := currentStream s; apiClient := apiClient s;
     homeScreen_active := homeScreen_active s;
     chatScreen_active := chatScreen_active s;
     photoModal_active := photoModal_active s;
     capturedPhoto_src := capturedPhoto_src s;
     chatInput_value := chatInput_value s; chatMessages := chatMessages s;
     locationText := locationText s; buttons := buttons s;
     use_photo_btn := use_photo_btn s; alerts := alerts s;
     requests := f (requests s); pending := pending s |}.
Definition upd_pending (f : list task -> list task) (s : state) : state :=
  {| currentStream := currentStream s; apiClient := apiClient s;
     homeScreen_active := homeScreen_active s;
     chatScreen_active := chatScreen_active s;
     photoModal_active := photoModal_active s;
     capturedPhoto_src := capturedPhoto_src s;
     chatInput_value := chatInput_value s; chatMessages := chatMessages s;
     locationText := locationText s; buttons := buttons s;
     use_photo_btn := use_photo_btn s; alerts := alerts s;
     requests := requests s; pending := f (pending s) |}.

Definition usePhotoBtn : nat := 0.

(** State of the page when script.js has been evaluated and before
    [DOMContentLoaded]: the home screen is shown, the transcript is empty. *)
Definition initial_state : state :=
  {| currentStream := None; apiClient := None;
     homeScreen_active := true; chatScreen_active := false;
     photoModal_active := false;
     capturedPhoto_src := ""; chatInput_value := ""; chatMessages := [];
     locationText := "";
     buttons := [[]]; use_photo_btn := usePhotoBtn;
     alerts := []; requests := []; pending := [] |}.

(** ** Statements with effects *)

(** A sequence of statements: it changes the state and either completes or
    throws. *)
Definition M (A : Type) : Type := state -> completion A * state.

Definition ret {A} (a : A) : M A := fun s => (Normal a, s).
Definition throw {A} (e : exn) : M A := fun s => (Throw e, s).
Definition and_then {A B} (m : M A) (k : A -> M B) : M B :=
  fun s => match m s with
           | (Normal a, s') => k a s'
           | (Throw e, s') => (Throw e, s')
           end.
Definition try_catchM {A} (body : M A) (handler : exn -> M A) : M A :=
  fun s => match body s with
           | (Normal a, s') => (Normal a, s')
           | (Throw e, s') => handler e s'
           end.
Definition eval {A} (c : completion A) : M A := fun s => (c, s).
Definition read {A} (f : state -> A) : M A := fun s => (Normal (f s), s).
Definition write (f : state -> state) : M unit := fun s => (Normal tt, f s).

(** The state a handler leaves behind; an exception that escapes a handler
    is reported on the console and changes nothing more. *)
Definition exec {A} (m : M A) (s : state) : state := snd (m s).

End Page.

Import Page.

Notation "'do' x '<-' c ';' k" := (and_then c (fun x => k))
  (at level 10, x name, c at level 100, k at level 200) : js_scope.
Notation "c ';;' k" := (and_then c (fun _ => k))
  (at level 100, k at level 200, right associativity) : js_scope.

(** ** script.js: functions *)

(** The double nearest to [m / 2^53], as a numerator over [2^53]: an
    integer below [2^53] is kept; a longer one keeps its 53 leading bits,
    rounded to nearest, ties to even. *)
Definition round_to_double (m : Z) : Z :=
  let e := (Z.log2 m - 52)%Z in
  if (e <=? 0)%Z then m
  else
    let q := (m / 2 ^ e)%Z in
    let r := (m mod 2 ^ e)%Z in
    if (2 ^ (e - 1) <? r)%Z || ((r =? 2 ^ (e - 1))%Z && Z.odd q)
    then ((q + 1) * 2 ^ e)%Z
    else (q * 2 ^ e)%Z.

(** [Math.floor(Math.random() * n)] where [Math.random()] returned the
    double [draw / 2^53]; a draw is valid when [0 <= draw < 2^53].  The
    product of the two doubles is rounded to a double before [Math.floor]
    sees it. *)
Definition random_index (draw : Z) (n : nat) : nat :=
  Z.to_nat (round_to_double (draw * Z.of_nat n) / 2 ^ 53).

(** [arr[i]] on an array of strings *)
Definition index (arr : list string) (i : nat) : value :=
  match arr !! i with
  | Some x => VStr x
  | None => VUndefined
  end.

Definition alert (msg : string) : M unit :=
  write (upd_alerts (fun l => l ++ [msg])).

Definition setTimeout (callback : task) : M unit :=
  write (upd_pending (fun l => l ++ [callback])).

(** Calls an async method of the client: the request goes out now, the
    caller stays suspended as [continuation] until the promise settles. *)
Definition await {A} (call : async A) (continuation : task) : M unit :=
  write (upd_requests (fun l => l ++ [sent call])) ;;
  write (upd_pending (fun l => l ++ [continuation])).

(** [element.addEventListener('click', l)] on a use-photo button *)
Definition addEventListener (element : nat) (l : listener) : M unit :=
  write (upd_buttons (alter (fun ls => ls ++ [l]) element)).

(** [element.cloneNode(true)]: a new element, without the listeners *)
Definition cloneNode (element : nat) : M nat :=
  do fresh <- read (fun s => length (buttons s));
  write (upd_buttons (fun b => b ++ [[]])) ;;
  ret fresh.

(** [element.parentNode.replaceChild(newChild, element)]: [parentNode] is
    [null] once the element is no longer in the document. *)
Definition parentNode_replaceChild (element newChild : nat) : M unit :=
  do in_document <- read use_photo_btn;
  if Nat.eqb in_document element
  then write (upd_use_photo_btn (fun _ => newChild))
  else throw (TypeError_read "null" "replaceChild").

(** [document.getElementById('use-photo-btn')] *)
Definition getElementById_use_photo_btn : M nat := read use_photo_btn.

(** Lines 339-365.  [image] is falsy when it is [null] or the empty string;
    assigning [undefined] to [textContent] clears the text.  The message
    joins the transcript last, after both assignments converted their
    value to a string. *)
Definition addMessage (type : sender) (text : value) (image : value) : M unit :=
  do img <- eval (if truthy image
                  then let* src := ToString image in Normal (Some src)
                  else Normal None);
  do textContent <- eval (match text with
                          | VUndefined | VNull => Normal ""
                          | _ => ToString text
                          end);
  write (upd_chatMessages (fun l => l ++
    [ {| origin := type; text := textContent; image := img |} ])).

(** Lines 279-288 *)
Definition showHomeScreen : M unit :=
  write (upd_homeScreen_active (fun _ => true)) ;;
  write (upd_chatScreen_active (fun _ => false)).

Definition showChatScreen : M unit :=
  write (upd_homeScreen_active (fun _ => false)) ;;
  write (upd_chatScreen_active (fun _ => true)).

(** Lines 223-230 *)
Definition closePhotoModal : M unit :=
  write (upd_photoModal_active (fun _ => false)).

Definition retakePhoto : M unit := closePhotoModal.

(** Lines 179-188 *)
Definition handleAwaken : M unit := showChatScreen.

(** Lines 191-220.  [frame] is what [photoCanvas.toDataURL('image/png')]
    returns for the frame drawn. *)
Definition handleCapture (frame : string) : M unit :=
  do stream <- read currentStream;
  match stream with
  | None => alert "相机未初始化，无法拍照"
  | Some _ =>
      write (upd_capturedPhoto_src (fun _ => frame)) ;;
      write (upd_photoModal_active (fun _ => true))
  end.

(** Lines 312-337 *)
Definition responses : list (string * list string) :=
  [ ("你好", ["你好呀！很高兴见到你。"; "嘿，你终于来了！"; "你好，我是这里的地灵。"]);
    ("故事", ["我有好多故事要讲呢，你想听哪个？"; "故事啊...让我想想从哪说起好呢。";
              "我的故事都在茶里呢，要不要来一杯？"]);
    ("名字", ["我是茶壶地灵，你可以叫我小茶。"; "名字？我有很多名字，你叫我什么都可以。"]);
    ("default", [ "有趣的问题...让我想想。";
                  "嗯嗯，你说得对。";
                  "这个问题很有深意呢。";
                  "我能感觉到你的真诚。";
                  "万物皆有灵，你感受到了吗？";
                  "继续说，我在听呢。";
                  "哈哈，你真有意思！" ]) ].

(** [responses.key] *)
Fixpoint property (key : string) (obj : list (string * list string)) : list string :=
  match obj with
  | [] => []
  | (k, v) :: rest => if String.eqb k key then v else property key rest
  end.

(** The [for ... of Object.entries(responses)] loop: [Some] reply when an
    iteration returns, [None] when the loop runs to its end. *)
Fixpoint keyword_loop (entries : list (string * list string))
    (userMessage : string) (draw : Z) : option value :=
  match entries with
  | [] => None
  | (key, value) :: rest =>
      if negb (String.eqb key "default") && includes key userMessage
      then Some (index value (random_index draw (length value)))
      else keyword_loop rest userMessage draw
  end.

Definition generateSpiritResponse (userMessage : string) (draw : Z) : value :=
  match keyword_loop responses userMessage draw with
  | Some reply => reply
  | None =>
      index (property "default" responses)
            (random_index draw (length (property "default" responses)))
  end.

(** Lines 291-309.  The delay of the timer, [500 + Math.random() * 1000],
    is not modelled: pending callbacks may run in any order. *)
Definition sendMessage : M unit :=
  do value <- read chatInput_value;
  let message := trim value in
  if String.eqb message "" then ret tt
  else
    addMessage user (VStr message) VNull ;;
    write (upd_chatInput_value (fun _ => "")) ;;
    setTimeout (sendMessage_timeout message).

Definition sendMessage_callback (message : string) (draw : Z) : M unit :=
  let response := generateSpiritResponse message draw in
  addMessage spirit response VNull.

(** [objects.join(sep)]: only an array has the method. *)
Definition call_join (objects : value) (sep : string) : completion string :=
  match objects with
  | VArr elts => Array_join sep elts
  | VUndefined => Throw (TypeError_read "undefined" "join")
  | VNull => Throw (TypeError_read "null" "join")
  | _ => Throw (TypeError_call "result.objects.join")
  end.

Definition newline : string := of_bytes [0x0A].

(** Lines 233-276, up to the [await] and to the [setTimeout]. *)
Definition usePhoto : M unit :=
  do imageData <- read capturedPhoto_src;
  addMessage user (VStr "我拍了一张照片") (VStr imageData) ;;
  closePhotoModal ;;
  showChatScreen ;;
  do client <- read apiClient;
  match client with
  | Some client =>
      addMessage spirit (VStr "让我看看这是什么...") VNull ;;
      await (identifyImage client imageData "") (usePhoto_await client imageData)
  | None => setTimeout usePhoto_timeout
  end.

(** Lines 251-262: the rest of the [try] block once the promise of
    [identifyImage] has settled, and its [catch]. *)
Definition usePhoto_continue (client : APIClient) (imageData : string)
    (fetched : completion response) : M unit :=
  try_catchM
    (do result <- eval (settle (identifyImage client imageData "") fetched);
     do success <- eval (get result "success");
     if truthy success then
       do description <- eval (get result "description");
       do described <- eval (ToString description);
       do objects <- eval (get result "objects");
       do joined <- eval (call_join objects "、");
       let responseText :=
         "我识别出来了！这是：" +:+ described +:+ newline +:+ newline
         +:+ "其中的物体有：" +:+ joined in
       addMessage spirit (VStr responseText) VNull
     else addMessage spirit (VStr "抱歉，我没能识别出这是什么。") VNull)
    (fun error =>
       addMessage spirit (VStr "识别时出错了，但我能感受到这张照片的灵性。") VNull).

(** Lines 265-274 *)
Definition usePhoto_callback (draw : Z) : M unit :=
  let responses :=
    [ "哈哈，拍得不错！这张照片里藏着我的秘密呢。";
      "哎呀，被你拍到了！我正在这里休息呢。";
      "这张照片很有灵性，你能感觉到我的存在吗？";
      "有趣的角度！让我给你讲讲这个地方的故事..." ] in
  let randomResponse := index responses (random_index draw (length responses)) in
  addMessage spirit randomResponse VNull.

(** Lines 498-539, up to the [await] and to the [setTimeout]. *)
Definition useUploadedPhoto (imageData : string) : M unit :=
  closePhotoModal ;;
  addMessage user (VStr "我上传了一张图片") (VStr imageData) ;;
  showChatScreen ;;
  do client <- read apiClient;
  match client with
  | Some client =>
      addMessage spirit (VStr "让我看看你上传了什么...") VNull ;;
      await (identifyImage client imageData "")
            (useUploadedPhoto_await client imageData)
  | None => setTimeout useUploadedPhoto_timeout
  end.

(** Lines 513-524 *)
Definition useUploadedPhoto_continue (client : APIClient) (imageData : string)
    (fetched : completion response) : M unit :=
  try_catchM
    (do result <- eval (settle (identifyImage client imageData "") fetched);
     do success <- eval (get result "success");
     if truthy success then
       do description <- eval (get result "description");
       do described <- eval (ToString description);
       do objects <- eval (get result "objects");
       do joined <- eval (call_join objects "、");
       let responseText :=
         "我识别出来了！这是：" +:+ described +:+ newline +:+ newline
         +:+ "其中的物体有：" +:+ joined in
       addMessage spirit (VStr responseText) VNull
     else addMessage spirit (VStr "抱歉，我没能识别出这是什么。") VNull)
    (fun error =>
       addMessage spirit (VStr "识别时出错了，但我能感受到这张照片的灵性。") VNull).

(** Lines 527-537 *)
Definition useUploadedPhoto_callback (draw : Z) : M unit :=
  let responses :=
    [ "哦！这张照片很有灵性呢！";
      "哇，我感受到了这张照片里的故事。";
      "有意思，这张照片里好像藏着什么秘密...";
      "好照片！万物皆有灵，你拍到了它的灵魂。";
      "这张照片让我想起了很多往事..." ] in
  let randomResponse := index responses (random_index draw (length responses)) in
  addMessage spirit randomResponse VNull.

(** Lines 368-372: [track.stop()] on every track *)
Definition stop (t : track) : track :=
  {| kind := kind t; enabled := enabled t; stopped := true |}.

Definition beforeunload : M unit :=
  do stream <- read currentStream;
  match stream with
  | Some tracks => write (upd_currentStream (fun _ => Some (map stop tracks)))
  | None => ret tt
  end.

(** Lines 375-395: [track.enabled = flag] on the video tracks *)
Definition set_enabled (flag : bool) (t : track) : track :=
  if String.eqb (kind t) "video"
  then {| kind := kind t; enabled := flag; stopped := stopped t |}
  else t.

Definition visibilitychange (hidden : bool) : M unit :=
  do stream <- read currentStream;
  if hidden then
    match stream with
    | Some tracks =>
        write (upd_currentStream (fun _ => Some (map (set_enabled false) tracks)))
    | None => ret tt
    end
  else
    match stream with
    | Some tracks =>
        write (upd_currentStream (fun _ => Some (map (set_enabled true) tracks)))
    | None => ret tt
    end.

(** [array.forEach((x, index) => f)] *)
Fixpoint forEach {A} (f : A -> nat -> M unit) (l : list A) (index : nat) : M unit :=
  match l with
  | [] => ret tt
  | x :: rest => f x index ;; forEach f rest (S index)
  end.

(** [reader.onload = ...; reader.readAsDataURL(file)] *)
Definition readAsDataURL (f : file) (index : nat) : M unit :=
  write (upd_pending (fun l => l ++ [reader_onload f index])).

(** Lines 455-495 *)
Definition handleFiles (files : list file) : M unit :=
  let imageFiles := filter (fun f => startsWith "image/" (type f) = true) files in
  if Nat.eqb (length imageFiles) 0 then alert "请选择图片文件！"
  else forEach (fun file index => readAsDataURL file index) imageFiles 0.

(** Lines 467-491: [reader.onload] schedules the preview after
    [index * 100] ms. *)
Definition reader_onload_handler (index : nat) (imageData : string) : M unit :=
  setTimeout (handleFiles_timeout imageData index).

(** Lines 471-490 *)
Definition handleFiles_callback (imageData : string) (index : nat) : M unit :=
  write (upd_capturedPhoto_src (fun _ => imageData)) ;;
  write (upd_photoModal_active (fun _ => true)) ;;
  if Nat.eqb index 0 then
    do newUsePhotoBtn <- cloneNode usePhotoBtn;
    parentNode_replaceChild usePhotoBtn newUsePhotoBtn ;;
    addEventListener newUsePhotoBtn (useUploadedPhoto_listener imageData) ;;
    do found <- getElementById_use_photo_btn;
    addEventListener found (useUploadedPhoto_listener imageData)
  else ret tt.

(** Lines 438-452.  Removing the [drag-over] class and clearing
    [fileInput.value] touch nothing the model keeps. *)
Definition handleDrop (files : list file) : M unit := handleFiles files.
Definition handleFileSelect (files : list file) : M unit := handleFiles files.

(** What script.js finds around it when the page has loaded: whether
    [navigator.mediaDevices.getUserMedia] and [navigator.geolocation]
    exist, and whether the class [APIClient] of api.js is defined.  It is
    not when the browser rejected api.js, as it does when both files are
    classic scripts and api.js comes second: its top-level
    [const apiClient] collides with the [let apiClient] of script.js. *)
Record navigator := {
  mediaDevices : bool;
  geolocation : bool;
  APIClient_defined : bool
}.

(** Lines 36-60, up to [await apiClient.checkHealth()], and the [catch]
    when [new APIClient()] throws. *)
Definition initAPI (nav : navigator) : M unit :=
  try_catchM
    (if APIClient_defined nav then
       let client := new_APIClient API_CONFIG in
       write (upd_apiClient (fun _ => Some client)) ;;
       await (checkHealth client) (initAPI_await client)
     else throw (ReferenceError "APIClient"))
    (fun error => write (upd_apiClient (fun _ => None))).

(** Lines 41-59 *)
Definition initAPI_continue (client : APIClient) (fetched : completion response)
  : M unit :=
  try_catchM
    (do health <- eval (settle (checkHealth client) fetched);
     do status <- eval (get health "status");
     if strict_eq_str status "ok" then
       do model_loaded <- eval (get health "model_loaded");
       ret tt
     else write (upd_apiClient (fun _ => None)))
    (fun error => write (upd_apiClient (fun _ => None))).

(** Lines 63-101 *)
Definition initCamera (nav : navigator) : M unit :=
  if negb (mediaDevices nav)
  then write (upd_locationText (fun _ => "相机功能不可用"))
  else setTimeout initCamera_await.

(** A track of a stream that [getUserMedia] just returned. *)
Definition live (track_kind : string) : track :=
  {| kind := track_kind; enabled := true; stopped := false |}.

Definition initCamera_continue (r : completion (list string)) : M unit :=
  match r with
  | Normal kinds => write (upd_currentStream (fun _ => Some (map live kinds)))
  | Throw error =>
      if String.eqb (name error) "NotAllowedError"
         || String.eqb (name error) "PermissionDeniedError"
      then alert "需要相机权限才能使用拍照功能。请在浏览器设置中允许访问相机。"
      else if String.eqb (name error) "NotFoundError"
      then alert "未检测到相机设备。"
      else alert ("相机初始化失败: " +:+ message error)
  end.

(** Lines 104-146; [currentPosition] is written and never read. *)
Definition initGeolocation (nav : navigator) : M unit :=
  if negb (geolocation nav)
  then write (upd_locationText (fun _ => "地理位置不支持"))
  else setTimeout getCurrentPosition_callback.

Definition getCurrentPosition_continue (r : nat + string * string) : M unit :=
  match r with
  | inr (latitude, longitude) =>
      write (upd_locationText (fun _ => latitude +:+ ", " +:+ longitude))
  | inl code =>
      let errorMessage :=
        match code with
        | 1 => "位置权限被拒绝"
        | 2 => "位置信息不可用"
        | 3 => "位置请求超时"
        | _ => "位置获取失败"
        end in
      write (upd_locationText (fun _ => errorMessage))
  end.

(** Lines 149-176: the one registration that the program later undoes; the
    other listeners stay for the life of the page and appear as the cases
    of [step]. *)
Definition initEventListeners : M unit :=
  addEventListener usePhotoBtn usePhoto_listener.

(** Lines 27-33 *)
Definition DOMContentLoaded (nav : navigator) : M unit :=
  initAPI nav ;;
  initCamera nav ;;
  initGeolocation nav ;;
  initEventListeners.

(** ** The event loop *)

Inductive event :=
  | click_awakenBtn
  | click_cameraFab (frame : string)
  | click_backBtn
  | input_chatInput (value : string)
  | click_sendBtn
  | keypress_chatInput (key : string)
  | click_closeModal
  | click_retakeBtn
  | click_photoModal (target_is_photoModal : bool)
  | click_use_photo_btn
  | drop_dropZone (files : list file)
  | change_fileInput (files : list file)
  | visibilitychange_document (hidden : bool)
  | beforeunload_window
  | settled (n : nat) (a : answer).

Definition listener_body (l : listener) : M unit :=
  match l with
  | usePhoto_listener => usePhoto
  | useUploadedPhoto_listener imageData => useUploadedPhoto imageData
  end.

(** A click on the element with id [use-photo-btn] that is in the document
    runs its listeners in registration order. *)
Definition dispatch_click (s : state) : state :=
  fold_left (fun s' l => exec (listener_body l) s')
            (default [] (buttons s !! use_photo_btn s)) s.

Definition resume (t : task) (a : answer) : option (M unit) :=
  match t, a with
  | initAPI_await client, Fetched r => Some (initAPI_continue client r)
  | initCamera_await, Media r => Some (initCamera_continue r)
  | getCurrentPosition_callback, Located r => Some (getCurrentPosition_continue r)
  | sendMessage_timeout message, Random draw =>
      Some (sendMessage_callback message draw)
  | usePhoto_await client imageData, Fetched r =>
      Some (usePhoto_continue client imageData r)
  | usePhoto_timeout, Random draw => Some (usePhoto_callback draw)
  | useUploadedPhoto_await client imageData, Fetched r =>
      Some (useUploadedPhoto_continue client imageData r)
  | useUploadedPhoto_timeout, Random draw => Some (useUploadedPhoto_callback draw)
  | reader_onload f index, Loaded (Some imageData) =>
      Some (reader_onload_handler index imageData)
  | reader_onload f index, Loaded None => Some (ret tt)
  | handleFiles_timeout imageData index, Elapsed =>
      Some (handleFiles_callback imageData index)
  | _, _ => None
  end.

(** One turn of the event loop.  [settled n a] resumes the [n]-th pending
    callback with the answer [a]; it is not an event of the page when there
    is no such callback or the answer is not of the kind it waits for. *)
Definition step (s : state) (e : event) : state :=
  match e with
  | click_awakenBtn => exec handleAwaken s
  | click_cameraFab frame => exec (handleCapture frame) s
  | click_backBtn => exec showHomeScreen s
  | input_chatInput value => upd_chatInput_value (fun _ => value) s
  | click_sendBtn => exec sendMessage s
  | keypress_chatInput key =>
      if String.eqb key "Enter" then exec sendMessage s else s
  | click_closeModal => exec closePhotoModal s
  | click_retakeBtn => exec retakePhoto s
  | click_photoModal target_is_photoModal =>
      if target_is_photoModal then exec closePhotoModal s else s
  | click_use_photo_btn => dispatch_click s
  | drop_dropZone files => exec (handleDrop files) s
  | change_fileInput files => exec (handleFileSelect files) s
  | visibilitychange_document hidden => exec (visibilitychange hidden) s
  | beforeunload_window => exec beforeunload s
  | settled n a =>
      match pending s !! n with
      | Some t =>
          match resume t a with
          | Some callback => exec callback (upd_pending (delete n) s)
          | None => s
          end
      | None => s
      end
  end.

Definition run (s : state) (events : list event) : state :=
  fold_left step events s.

(** A session: the page loads, then events arrive. *)
Definition session (nav : navigator) (events : list event) : state :=
  run (exec (DOMContentLoaded nav) initial_state) events.

Definition full_navigator : navigator :=
  {| mediaDevices := true; geolocation := true; APIClient_defined := true |}.

(** * Notions used to state the properties *)

(** The object [checkHealth] returns for a caught error. *)
Definition error_status (error : exn) : value :=
  VObj [("status", VStr "error"); ("error", VStr (message error))].

(** [data.error] on a decoded body that is neither [null] nor [undefined] *)
Definition error_field (data : value) : value :=
  match data with
  | VObj props => lookup_prop "error" props
  | _ => VUndefined
  end.

(** What is thrown for a non-success response with a decoded body: an
    [Error] whose message is the [error] field, converted to a string, when
    the field is truthy, and the generic message otherwise; when the field
    is an object that does not convert, the [TypeError] of the conversion. *)
Definition failure_of (data : value) (generic : string) : exn :=
  if truthy (error_field data) then
    match ToString (error_field data) with
    | Normal reason => Error reason
    | Throw e => e
    end
  else Error generic.

(** What [response.json()] throws on a body that is not JSON, as one
    browser words it. *)
Definition decode_error : exn :=
  mkExn "SyntaxError" "Unexpected token < in JSON at position 0".

(** A value [Math.random()] can return, as a numerator over [2^53]. *)
Definition valid_draw (draw : Z) : Prop := (0 <= draw < 2 ^ 53)%Z.

(** The candidate sets of the keyword responder, and the set the
    specification associates with a message: that of the first keyword, in
    the order greeting, story, name, that the message contains, else the
    default set. *)
Definition greeting_set : list string := property "你好" responses.
Definition story_set : list string := property "故事" responses.
Definition name_set : list string := property "名字" responses.
Definition default_set : list string := property "default" responses.

Definition candidate_set (userMessage : string) : list string :=
  if includes "你好" userMessage then greeting_set
  else if includes "故事" userMessage then story_set
  else if includes "名字" userMessage then name_set
  else default_set.

(** An entry of a file list is accepted when its type starts with
    [image/]. *)
Definition image_typed (f : file) : bool := startsWith "image/" (type f).

(** The decodings [handleFiles] starts for the accepted files, numbered
    from [index]. *)
Fixpoint readers (index : nat) (imageFiles : list file) : list task :=
  match imageFiles with
  | [] => []
  | f :: rest => reader_onload f index :: readers (S index) rest
  end.

(** Some track of the current stream has been stopped. *)
Definition any_stopped (s : state) : bool :=
  match currentStream s with
  | Some tracks => existsb stopped tracks
  | None => false
  end.

(** How a visibility change relates a track before and after: only the
    [enabled] flag of a video track changes, to [flag]. *)
Definition toggled (flag : bool) (before after : track) : Prop :=
  kind after = kind before /\
  stopped after = stopped before /\
  enabled after = (if String.eqb (kind before) "video" then flag
                   else enabled before).

(** A relation between the states before and after a handler that holds
    when nothing happens and composes along a sequence of statements;
    [respects R m] says that the statement [m] relates every state to the
    one it leaves. *)
Definition respects (R : state -> state -> Prop) {A} (m : M A) : Prop :=
  forall s, R s (exec m s).

(** No live track is stopped. *)
Definition stays_live (s s' : state) : Prop :=
  any_stopped s = false -> any_stopped s' = false.

(** Messages as they appear in the transcript, and a transcript that grew
    by one message. *)
Definition spirit_says (reply : string) : chat_message :=
  {| origin := spirit; text := reply; image := None |}.
Definition user_says (msg : string) : chat_message :=
  {| origin := user; text := msg; image := None |}.
Definition user_shows (msg imageData : string) : chat_message :=
  {| origin := user; text := msg;
     image := if String.eqb imageData "" then None else Some imageData |}.
Definition appended (m : chat_message) (t : state) : state :=
  upd_chatMessages (fun _ => chatMessages t ++ [m]) t.



(** The client that [initAPI] creates, and answers of a healthy backend. *)
Definition default_client : APIClient := new_APIClient API_CONFIG.

Definition health_ok : completion response :=
  Normal {| ok := true;
            json := Normal (VObj [("status", VStr "ok");
                                  ("model_loaded", VBool true)]) |}.


(** A request to the chat endpoint of the gateway. *)
Definition is_chat_request (r : request) : bool :=
  String.eqb (url r) (sent (chat default_client "" VNull "")).(url).

(** The health probe, and whether its answer keeps the gateway: the body
    decoded to an object whose [status] is ['ok']. *)
Definition is_health_probe (r : request) : bool :=
  String.eqb (url r) (sent (checkHealth default_client)).(url).

Definition health_probes (s : state) : nat :=
  length (filter (fun r => is_health_probe r = true) (requests s)).

Definition probe_succeeded (fetched : completion response) : bool :=
  match fetched with
  | Normal response =>
      match json response with
      | Normal (VObj props) => strict_eq_str (lookup_prop "status" props) "ok"
      | _ => false
      end
  | Throw _ => false
  end.

(** Once the gateway is off it stays off and nothing more is sent. *)
Definition stays_off (s s' : state) : Prop :=
  apiClient s = None -> apiClient s' = None /\ requests s' = requests s.

(** The gateway is absent or the client of [initAPI], and [k] health probes
    have been sent. *)
Definition probes_sent (k : nat) (s : state) : Prop :=
  (apiClient s = None \/ apiClient s = Some default_client) /\
  health_probes s = k.

Definition keeps_probes_sent (k : nat) (s s' : state) : Prop :=
  probes_sent k s -> probes_sent k s'.

(** The probes of a page: one when the class [APIClient] is defined, none
    when [new APIClient()] throws. *)
Definition probes_of (nav : navigator) : nat :=
  if APIClient_defined nav then 1 else 0.

(** A browser in which api.js was rejected: script.js was loaded first, so
    the declaration [const apiClient] of api.js collides with the
    [let apiClient] of script.js and the class [APIClient] is not defined. *)
Definition navigator_without_APIClient : navigator :=
  {| mediaDevices := true; geolocation := true; APIClient_defined := false |}.

(** A browser without camera and geolocation support in which api.js was
    accepted, two image files and what reading them gives. *)
Definition bare_navigator : navigator :=
  {| mediaDevices := false; geolocation := false; APIClient_defined := true |}.
Definition first_file : file := {| file_name := "first.png"; type := "image/png" |}.
Definition second_file : file := {| file_name := "second.png"; type := "image/png" |}.
Definition first_data : string := "data:image/png;base64,AAAA".
Definition second_data : string := "data:image/png;base64,BBBB".

(** The listeners of the use-photo button that is in the document. *)
Definition use_photo_listeners (s : state) : list listener :=
  default [] (buttons s !! use_photo_btn s).

(** The transcript only grows. *)
Definition grows (s s' : state) : Prop :=
  exists added, chatMessages s' = chatMessages s ++ added.

(** The request that identifies an image, and the requests a page may
    send. *)
Definition allowed_request (r : request) : Prop :=
  r = sent (checkHealth default_client) \/
  exists imageData, r = sent (identifyImage default_client imageData "").

Definition only_allowed_requests (s : state) : Prop :=
  (apiClient s = None \/ apiClient s = Some default_client) /\
  Forall allowed_request (requests s).

Definition keeps_allowed_requests (s s' : state) : Prop :=
  only_allowed_requests s -> only_allowed_requests s'.


(** The number of pending callbacks of one kind. *)
Definition waiting (p : task -> bool) (s : state) : nat :=
  length (filter (fun t => p t = true) (pending s)).

Definition is_probe_task (t : task) : bool :=
  match t with initAPI_await _ => true | _ => false end.
Definition is_camera_task (t : task) : bool :=
  match t with initCamera_await => true | _ => false end.
Definition is_position_task (t : task) : bool :=
  match t with getCurrentPosition_callback => true | _ => false end.

(** Callbacks of kind [p] are never scheduled again. *)
Definition not_rescheduled (p : task -> bool) (s s' : state) : Prop :=
  waiting p s' <= waiting p s.

(** Callbacks of kind [p] are never scheduled again, and as long as none of
    them runs the observation [field] of the state does not change. *)
Definition written_by {A} (p : task -> bool) (field : state -> A)
    (s s' : state) : Prop :=
  waiting p s' <= waiting p s /\
  (waiting p s' = waiting p s -> field s' = field s).

(** There is no camera stream. *)
Definition no_stream (s : state) : bool :=
  match currentStream s with None => true | Some _ => false end.

(** The label that a position answer leaves in [locationText]. *)
Definition position_text (r : nat + string * string) : string :=
  match r with
  | inr (latitude, longitude) => latitude +:+ ", " +:+ longitude
  | inl 1 => "位置权限被拒绝"
  | inl 2 => "位置信息不可用"
  | inl 3 => "位置请求超时"
  | inl _ => "位置获取失败"
  end.

(** The state of a page that has just loaded. *)
Definition after_load (nav : navigator) : state :=
  exec (DOMContentLoaded nav) initial_state.

(** Exactly one of the two screens is shown. *)
Definition one_screen (s : state) : Prop :=
  homeScreen_active s = negb (chatScreen_active s).

Definition keeps_one_screen (s s' : state) : Prop := one_screen s -> one_screen s'.

(** The use-photo button in the document is the one of load time, with the
    listener of [initEventListeners]; or it is a clone that carries two
    listeners for the uploaded image [imageData]. *)
Definition original_button (s : state) : Prop :=
  use_photo_btn s = usePhotoBtn /\
  buttons s !! usePhotoBtn = Some [usePhoto_listener].

Definition rebound (imageData : string) (s : state) : Prop :=
  use_photo_btn s <> usePhotoBtn /\
  use_photo_btn s < length (buttons s) /\
  buttons s !! use_photo_btn s
  = Some [ useUploadedPhoto_listener imageData;
           useUploadedPhoto_listener imageData ].

Definition stays_rebound (imageData : string) (s s' : state) : Prop :=
  rebound imageData s -> rebound imageData s'.

Definition button_known (s : state) : Prop :=
  original_button s \/ exists imageData, rebound imageData s.

Definition keeps_button_known (s s' : state) : Prop :=
  button_known s -> button_known s'.

(** * Theorems *)

(** ** The remote gateway (api.js) *)

Lemma get_error_field data :
  data <> VNull -> data <> VUndefined ->
  get data "error" = Normal (error_field data).
Proof. intros Hn Hu. destruct data; simpl; congruence. Qed.

Lemma failure_of_message (s generic : string) props :
  lookup_prop "error" props = VStr s -> s <> "" ->
  failure_of (VObj props) generic = Error s.
Proof.
  intros Hs Hne. unfold failure_of. simpl. rewrite Hs. simpl.
  destruct (String.eqb_spec s ""); [contradiction | reflexivity].
Qed.

(** C5: [checkHealth] never throws.  Whatever the [fetch] promise settles
    to, the method returns normally: when [fetch] rejects or the body fails
    to decode, the error is caught and the result is an object whose
    [status] is ['error'] (with the error's message); when the body decodes,
    the result is the decoded body. *)
Theorem checkHealth_never_throws (this : APIClient) (fetched : completion response) :
  (exists result, settle (checkHealth this) fetched = Normal result) /\
  match fetched with
  | Throw error =>
      settle (checkHealth this) fetched = Normal (error_status error)
  | Normal response =>
      match json response with
      | Throw error =>
          settle (checkHealth this) fetched = Normal (error_status error)
      | Normal data => settle (checkHealth this) fetched = Normal data
      end
  end /\
  (forall error, get (error_status error) "status" = Normal (VStr "error")).
Proof.
  split; [|split].
  - destruct fetched as [[ok_flag [data|error]]|error]; eexists; reflexivity.
  - destruct fetched as [[ok_flag [data|error]]|error]; reflexivity.
  - reflexivity.
Qed.

(** C6, as stated, fails: a response with a non-success status whose body is
    not JSON makes [identifyImage] and [chat] rethrow the decoding error,
    whose message is neither a server-provided field nor the generic
    failure message. *)
Lemma identifyImage_chat_undecodable_error_body :
  let this := new_APIClient API_CONFIG in
  let fetched := Normal {| ok := false; json := Throw decode_error |} in
  settle (identifyImage this "data:image/png;base64,AAAA" "") fetched
    = Throw decode_error /\
  settle (chat this "你好" VNull "") fetched = Throw decode_error /\
  message decode_error <> "识别失败" /\
  message decode_error <> "聊天失败".
Proof. repeat split; discriminate. Qed.

(** The [error] field of a body may be an object that does not convert to a
    string: [new Error(data.error)] then throws the [TypeError] of the
    conversion, not an [Error] that carries the field. *)
Lemma identifyImage_chat_error_field_not_convertible :
  let this := new_APIClient API_CONFIG in
  let data := VObj [("error", VObj [("toString", VNum "1" true)])] in
  let fetched := Normal {| ok := false; json := Normal data |} in
  settle (identifyImage this "data:image/png;base64,AAAA" "") fetched
    = Throw TypeError_primitive /\
  settle (chat this "你好" VNull "") fetched = Throw TypeError_primitive.
Proof. split; reflexivity. Qed.

(** C6, amended: for [identifyImage] and [chat], when the body of the
    response decodes to a JSON value other than [null], a non-success status
    throws: an [Error] with the generic failure message when the [error]
    field of the body is not truthy; an [Error] whose message is that field
    converted to a string when it is truthy and converts (a non-empty
    string is its own conversion); and the [TypeError] of the conversion
    when it does not convert, as an object with a property of its own named
    [toString].  A success status returns the decoded body; when the body
    does not decode, the decoding error is rethrown whatever the status. *)
Theorem identifyImage_chat_decoded_body (this : APIClient)
    (imageBase64 text msg context : string) (image : value)
    (ok_flag : bool) (data : value) :
  data <> VNull -> data <> VUndefined ->
  let fetched := Normal {| ok := ok_flag; json := Normal data |} in
  settle (identifyImage this imageBase64 text) fetched
    = (if ok_flag then Normal data else Throw (failure_of data "识别失败")) /\
  settle (chat this msg image context) fetched
    = (if ok_flag then Normal data else Throw (failure_of data "聊天失败")) /\
  (forall error,
     settle (identifyImage this imageBase64 text)
       (Normal {| ok := ok_flag; json := Throw error |}) = Throw error /\
     settle (chat this msg image context)
       (Normal {| ok := ok_flag; json := Throw error |}) = Throw error) /\
  (forall generic,
     (truthy (error_field data) = false ->
      failure_of data generic = Error generic) /\
     (forall reason,
        truthy (error_field data) = true ->
        ToString (error_field data) = Normal reason ->
        failure_of data generic = Error reason) /\
     (forall reason,
        error_field data = VStr reason -> reason <> "" ->
        failure_of data generic = Error reason) /\
     (forall props,
        error_field data = VObj props -> has_own "toString" props = true ->
        failure_of data generic = TypeError_primitive)).
Proof.
  intros Hn Hu fetched. subst fetched.
  split; [|split; [|split]]; [| | |intros generic; unfold failure_of; repeat split].
  4: { intros Hfalse. rewrite Hfalse. reflexivity. }
  4: { intros reason Htrue Hreason. rewrite Htrue, Hreason. reflexivity. }
  4: { intros reason Hfield Hne. rewrite Hfield. simpl.
       destruct (String.eqb_spec reason ""); [contradiction | reflexivity]. }
  4: { intros props Hfield Hown. rewrite Hfield. simpl. rewrite Hown.
       reflexivity. }
  all: unfold failure_of.
  - destruct ok_flag; simpl; [reflexivity|].
    rewrite (get_error_field data Hn Hu). simpl. unfold or_else.
    destruct (truthy (error_field data)); [|reflexivity].
    destruct (ToString (error_field data)); reflexivity.
  - destruct ok_flag; simpl; [reflexivity|].
    rewrite (get_error_field data Hn Hu). simpl. unfold or_else.
    destruct (truthy (error_field data)); [|reflexivity].
    destruct (ToString (error_field data)); reflexivity.
  - intros error; split; reflexivity.
Qed.

Lemma identifyImage_chat_decoded_body_witness :
  let this := new_APIClient API_CONFIG in
  let data := VObj [("error", VStr "No image provided")] in
  let fetched := Normal {| ok := false; json := Normal data |} in
  settle (identifyImage this "" "") fetched = Throw (Error "No image provided") /\
  settle (chat this "你好" VNull "") fetched = Throw (Error "No image provided").
Proof.
  intros this data fetched.
  destruct (identifyImage_chat_decoded_body this "" "" "你好" "" VNull false data)
    as [Hi [Hc _]]; [discriminate | discriminate |].
  split; [exact Hi | exact Hc].
Defined.

(** ** The keyword responder *)

(** *** The rounded product *)

Section Rounding.
Local Open Scope Z_scope.

Lemma round_to_double_small m : m < 2 ^ 53 -> round_to_double m = m.
Proof.
  intros Hm. unfold round_to_double.
  destruct (Z.leb_spec (Z.log2 m - 52) 0) as [_|He]; [reflexivity|].
  exfalso.
  assert (Hpos : 0 < m).
  { destruct (Z.lt_ge_cases 0 m) as [H|H]; [exact H|].
    rewrite (Z.log2_nonpos m H) in He. lia. }
  pose proof (Z.log2_lt_pow2 m 53 Hpos) as [Hlt _]. specialize (Hlt Hm). lia.
Qed.

Lemma round_to_double_multiple m e :
  0 <= e -> Z.log2 m - 52 <= e -> (m mod 2 ^ e = 0) -> round_to_double m = m.
Proof.
  intros He Hle Hmod. unfold round_to_double.
  destruct (Z.leb_spec (Z.log2 m - 52) 0) as [_|Hpos]; [reflexivity|].
  set (e' := Z.log2 m - 52) in *.
  assert (Hdiv : m mod 2 ^ e' = 0).
  { apply Z.mod_divide; [apply Z.pow_nonzero; lia|].
    apply Z.mod_divide in Hmod; [|apply Z.pow_nonzero; lia].
    destruct Hmod as [c Hc]. exists (c * 2 ^ (e - e')).
    rewrite Hc, <- Z.mul_assoc, <- Z.pow_add_r by lia. f_equal. f_equal. lia. }
  rewrite Hdiv.
  assert (Hhalf : 0 < 2 ^ (e' - 1)) by (apply Z.pow_pos_nonneg; lia).
  destruct (Z.ltb_spec (2 ^ (e' - 1)) 0) as [H|_]; [lia|].
  destruct (Z.eqb_spec 0 (2 ^ (e' - 1))) as [H|_]; [lia|].
  simpl.
  pose proof (Z.div_mod m (2 ^ e') ltac:(apply Z.pow_nonzero; lia)) as Hdm.
  rewrite Hdiv in Hdm. lia.
Qed.

Lemma round_to_double_below n m :
  1 <= n <= 2 ^ 53 -> 0 <= m -> m + n <= n * 2 ^ 53 ->
  round_to_double m < n * 2 ^ 53.
Proof.
  intros Hn Hm Hbound. unfold round_to_double.
  destruct (Z.leb_spec (Z.log2 m - 52) 0) as [_|He]; [lia|].
  set (e := Z.log2 m - 52) in *.
  assert (Hpos : 0 < m).
  { destruct (Z.lt_ge_cases 0 m) as [H|H]; [exact H|].
    subst e. rewrite (Z.log2_nonpos m H) in He. lia. }
  destruct (Z.log2_spec m Hpos) as [Hlow Hhigh].
  replace (Z.log2 m) with (e + 52) in Hlow by (subst e; lia).
  assert (He53 : e <= 53).
  { destruct (Z.le_gt_cases e 53) as [H|H]; [exact H|]. exfalso.
    assert (2 ^ 106 <= 2 ^ (e + 52)) by (apply Z.pow_le_mono_r; lia).
    assert (n * 2 ^ 53 <= 2 ^ 53 * 2 ^ 53) by nia.
    change (2 ^ 53 * 2 ^ 53) with (2 ^ 106) in *. lia. }
  set (P := 2 ^ e).
  assert (HP : 0 < P) by (apply Z.pow_pos_nonneg; lia).
  assert (Hhalf : P = 2 * 2 ^ (e - 1)).
  { subst P. rewrite <- Z.pow_succ_r by lia. f_equal. lia. }
  assert (HN : n * 2 ^ 53 = n * 2 ^ (53 - e) * P).
  { subst P. rewrite <- Z.mul_assoc, <- Z.pow_add_r by lia. do 2 f_equal. lia. }
  assert (Hlow' : 2 ^ 52 * P <= m).
  { subst P. rewrite <- Z.pow_add_r by lia. rewrite Z.add_comm. exact Hlow. }
  pose proof (Z.div_mod m P ltac:(lia)) as Hdm.
  pose proof (Z.mod_pos_bound m P HP) as Hr.
  set (q := m / P) in *. set (r := m mod P) in *.
  destruct ((2 ^ (e - 1) <? r) || ((r =? 2 ^ (e - 1)) && Z.odd q)) eqn:Hup.
  - assert (Hrh : 2 ^ (e - 1) <= r).
    { apply orb_true_iff in Hup. destruct Hup as [H|H].
      - apply Z.ltb_lt in H. lia.
      - apply andb_true_iff in H. destruct H as [H _].
        apply Z.eqb_eq in H. lia. }
    set (c := n * 2 ^ (53 - e)) in *.
    destruct (Z.lt_ge_cases (q + 1) c) as [Hlt|Hge]; [nia|].
    exfalso.
    assert (Hqc : q < c) by nia.
    assert (Hq1 : q + 1 = c) by lia.
    assert (Hnh : n <= 2 ^ (e - 1)) by nia.
    assert (n * 2 ^ 53 <= 2 ^ (e - 1) * 2 ^ 53) by nia.
    assert (2 ^ (e - 1) * 2 ^ 53 = 2 ^ 52 * P).
    { rewrite Hhalf. change (2 ^ 53) with (2 * 2 ^ 52). ring. }
    lia.
  - nia.
Qed.

End Rounding.

(** The product is rounded before it is floored: [6004799503160661 * 3] is
    [2 ^ 54 - 1], a tie between two doubles that goes to the even one,
    [2.0], so the index is 2 although the exact product is below 2. *)
Lemma random_index_rounds_product :
  valid_draw 6004799503160661 /\
  random_index 6004799503160661 3 = 2 /\
  Z.to_nat (6004799503160661 * 3 / 2 ^ 53) = 1 /\
  generateSpiritResponse "你好" 6004799503160661
  = VStr "你好，我是这里的地灵。".
Proof. unfold valid_draw. repeat split; vm_compute; congruence. Qed.

Lemma random_index_lt draw n :
  valid_draw draw -> 0 < n -> (Z.of_nat n <= 2 ^ 53)%Z ->
  random_index draw n < n.
Proof.
  unfold valid_draw, random_index. intros Hd Hn Hmax.
  assert (Hr : (round_to_double (draw * Z.of_nat n) < Z.of_nat n * 2 ^ 53)%Z).
  { apply round_to_double_below; nia. }
  assert (Hq : (round_to_double (draw * Z.of_nat n) / 2 ^ 53 < Z.of_nat n)%Z).
  { apply Z.div_lt_upper_bound; lia. }
  lia.
Qed.

Lemma index_in_range (arr : list string) draw :
  valid_draw draw -> arr <> [] -> (Z.of_nat (length arr) <= 2 ^ 53)%Z ->
  exists reply,
    index arr (random_index draw (length arr)) = VStr reply /\ In reply arr.
Proof.
  intros Hd Hne Hmax.
  assert (Hlt : random_index draw (length arr) < length arr).
  { apply random_index_lt; [exact Hd| |exact Hmax].
    destruct arr; [congruence | simpl; lia]. }
  apply lookup_lt_is_Some_2 in Hlt. destruct Hlt as [reply Hreply].
  exists reply. unfold index. rewrite Hreply. split; [reflexivity|].
  apply list_elem_of_In. eapply list_elem_of_lookup_2. exact Hreply.
Qed.

(** The loop over [Object.entries(responses)] picks from the set of the
    first keyword the message contains. *)
Lemma generateSpiritResponse_candidates userMessage draw :
  generateSpiritResponse userMessage draw
  = index (candidate_set userMessage)
          (random_index draw (length (candidate_set userMessage))).
Proof.
  unfold generateSpiritResponse, candidate_set. simpl.
  destruct (includes "你好" userMessage); [reflexivity|].
  destruct (includes "故事" userMessage); [reflexivity|].
  destruct (includes "名字" userMessage); reflexivity.
Qed.

Lemma candidate_set_nonempty userMessage : candidate_set userMessage <> [].
Proof.
  unfold candidate_set.
  destruct (includes "你好" userMessage); [discriminate|].
  destruct (includes "故事" userMessage); [discriminate|].
  destruct (includes "名字" userMessage); discriminate.
Qed.

Lemma candidate_set_short userMessage :
  (Z.of_nat (length (candidate_set userMessage)) <= 2 ^ 53)%Z.
Proof.
  unfold candidate_set.
  destruct (includes "你好" userMessage); [simpl; lia|].
  destruct (includes "故事" userMessage); [simpl; lia|].
  destruct (includes "名字" userMessage); simpl; lia.
Qed.

Lemma local_reply userMessage draw :
  valid_draw draw ->
  exists reply,
    generateSpiritResponse userMessage draw = VStr reply /\
    In reply (candidate_set userMessage).
Proof.
  intros Hd. rewrite generateSpiritResponse_candidates.
  apply index_in_range;
    [exact Hd | apply candidate_set_nonempty | apply candidate_set_short].
Qed.

(** C4, as stated, fails in its last clause: a message that contains the
    story keyword after the greeting keyword gets a reply of the greeting
    set, which is not in the story set. *)
Lemma generateSpiritResponse_story_after_greeting :
  let userMessage := "你好，给我讲个故事" in
  includes "故事" userMessage = true /\
  exists reply,
    generateSpiritResponse userMessage 0 = VStr reply /\
    In reply greeting_set /\ ~ In reply story_set.
Proof.
  split; [reflexivity|].
  exists "你好呀！很高兴见到你。". split; [reflexivity|]. split.
  - left. reflexivity.
  - intros H. simpl in H. intuition discriminate.
Qed.

(** C4, amended: for every message and every draw of [Math.random()], the
    reply of [generateSpiritResponse] is an element of the candidate set of
    the first keyword the message contains, in the order greeting, story,
    name, or of the default set when it contains none; in particular a
    message containing the greeting keyword gets a greeting reply, and a
    message containing the story keyword and not the greeting keyword gets
    a story reply. *)
Theorem generateSpiritResponse_first_match userMessage draw :
  valid_draw draw ->
  exists reply,
    generateSpiritResponse userMessage draw = VStr reply /\
    In reply (candidate_set userMessage) /\
    (includes "你好" userMessage = true -> In reply greeting_set) /\
    (includes "你好" userMessage = false -> includes "故事" userMessage = true ->
     In reply story_set).
Proof.
  intros Hd.
  destruct (local_reply userMessage draw Hd) as [reply [Heq Hin]].
  exists reply. split; [exact Heq|]. split; [exact Hin|]. split.
  - intros Hg. unfold candidate_set in Hin. rewrite Hg in Hin. exact Hin.
  - intros Hg Hs. unfold candidate_set in Hin. rewrite Hg, Hs in Hin. exact Hin.
Qed.

Lemma generateSpiritResponse_first_match_witness :
  exists reply,
    generateSpiritResponse "给我讲个故事" 4503599627370496 = VStr reply /\
    In reply story_set.
Proof.
  destruct (generateSpiritResponse_first_match "给我讲个故事" 4503599627370496)
    as [reply [Heq [_ [_ Hstory]]]].
  - unfold valid_draw. lia.
  - exists reply. split; [exact Heq|]. apply Hstory; reflexivity.
Defined.

(** ** Sending a message *)

Lemma strip_one_WhiteSpace w s :
  In w WhiteSpace -> strip_one WhiteSpace (w +:+ s) = Some s.
Proof.
  intros H. unfold WhiteSpace in H. simpl in H.
  repeat (destruct H as [<- | H]; [reflexivity|]). destruct H.
Qed.

Lemma WhiteSpace_nonempty w : In w WhiteSpace -> 0 < String.length w.
Proof.
  intros H. unfold WhiteSpace in H. simpl in H.
  repeat (destruct H as [<- | H]; [simpl; lia|]). destruct H.
Qed.

Lemma length_app_string (a b : string) :
  String.length (a +:+ b) = String.length a + String.length b.
Proof. induction a as [|c a IH]; simpl; [reflexivity | rewrite IH; reflexivity]. Qed.

Lemma strip_all_WhiteSpaceOnly s :
  WhiteSpaceOnly s ->
  forall fuel, String.length s <= fuel -> strip_all fuel WhiteSpace s = "".
Proof.
  induction 1 as [|w s Hw Hs IH]; intros fuel Hfuel.
  - destruct fuel; reflexivity.
  - rewrite length_app_string in Hfuel.
    pose proof (WhiteSpace_nonempty w Hw) as Hpos.
    destruct fuel as [|fuel]; [lia|].
    cbn [strip_all]. rewrite (strip_one_WhiteSpace w s Hw).
    apply IH. lia.
Qed.

(** [trim] of the empty string or of white space only is the empty string. *)
Lemma trim_WhiteSpaceOnly s : WhiteSpaceOnly s -> trim s = "".
Proof.
  intros H. unfold trim, trimStart.
  rewrite (strip_all_WhiteSpaceOnly s H); [reflexivity | lia].
Qed.

(** C7: when the text of the input is empty or white space only,
    [sendMessage] returns at once and leaves the whole state as it was: no
    message is appended, the input is not cleared, no timer is scheduled;
    so do the click on the send button and the Enter key that call it. *)
Theorem sendMessage_blank_noop (s : state) :
  WhiteSpaceOnly (chatInput_value s) ->
  sendMessage s = (Normal tt, s) /\
  step s click_sendBtn = s /\
  step s (keypress_chatInput "Enter") = s.
Proof.
  intros H.
  assert (Hs : sendMessage s = (Normal tt, s)).
  { unfold sendMessage, and_then, read.
    rewrite (trim_WhiteSpaceOnly _ H). reflexivity. }
  split; [exact Hs|]. split; simpl; unfold exec; rewrite Hs; reflexivity.
Qed.

Lemma sendMessage_blank_noop_witness :
  let s := upd_chatInput_value (fun _ => "  " +:+ of_bytes [0x09; 0xE3; 0x80; 0x80])
             (upd_chatMessages
                (fun _ => [ {| origin := user; text := "你好"; image := None |} ])
                initial_state) in
  step s click_sendBtn = s /\ chatMessages (step s click_sendBtn) = chatMessages s.
Proof.
  intros s.
  assert (Hws : WhiteSpaceOnly (chatInput_value s)).
  { apply (ws_more " " (" " +:+ of_bytes [0x09; 0xE3; 0x80; 0x80]));
      [cbv; tauto|].
    apply (ws_more " " (of_bytes [0x09; 0xE3; 0x80; 0x80])); [cbv; tauto|].
    apply (ws_more (of_bytes [0x09]) (of_bytes [0xE3; 0x80; 0x80])); [cbv; tauto|].
    apply (ws_more (of_bytes [0xE3; 0x80; 0x80]) ""); [cbv; tauto|].
    apply ws_empty. }
  destruct (sendMessage_blank_noop s Hws) as [_ [Hclick _]].
  split; [exact Hclick | rewrite Hclick; reflexivity].
Defined.

(** ** Relations that handlers respect *)

Section Respects.
Context (R : state -> state -> Prop) `{!PreOrder R}.

Lemma respects_ret {A} (a : A) : respects R (ret a).
Proof. intros s. reflexivity. Qed.

Lemma respects_throw {A} e : respects R (@throw A e).
Proof. intros s. reflexivity. Qed.

Lemma respects_eval {A} (c : completion A) : respects R (eval c).
Proof. intros s. reflexivity. Qed.

Lemma respects_read {A} (f : state -> A) : respects R (read f).
Proof. intros s. reflexivity. Qed.

Lemma respects_write f : (forall s, R s (f s)) -> respects R (write f).
Proof. intros H s. apply H. Qed.

Lemma respects_and_then {A B} (m : M A) (k : A -> M B) :
  respects R m -> (forall a, respects R (k a)) -> respects R (and_then m k).
Proof.
  intros Hm Hk s. specialize (Hm s). unfold exec, and_then in *.
  destruct (m s) as [[a|e] s1]; simpl in *; [|exact Hm].
  etransitivity; [exact Hm | apply Hk].
Qed.

Lemma respects_try_catchM {A} (body : M A) (handler : exn -> M A) :
  respects R body -> (forall e, respects R (handler e)) ->
  respects R (try_catchM body handler).
Proof.
  intros Hb Hh s. specialize (Hb s). unfold exec, try_catchM in *.
  destruct (body s) as [[a|e] s1]; simpl in *; [exact Hb|].
  etransitivity; [exact Hb | apply Hh].
Qed.

Lemma respects_forEach {A} (f : A -> nat -> M unit) (l : list A) :
  (forall x i, respects R (f x i)) -> forall i, respects R (forEach f l i).
Proof.
  intros Hf. induction l as [|x l IH]; intros i; simpl.
  - apply respects_ret.
  - apply respects_and_then; [apply Hf | intros _; apply IH].
Qed.

Lemma respects_fold {A} (body : A -> M unit) (l : list A) s :
  (forall x, respects R (body x)) ->
  R s (fold_left (fun s' x => exec (body x) s') l s).
Proof.
  intros Hb. revert s. induction l as [|x l IH]; intros s; simpl.
  - reflexivity.
  - etransitivity; [apply Hb | apply IH].
Qed.
End Respects.

Create HintDb handlers.

#[local] Hint Unfold alert setTimeout await addEventListener cloneNode
  parentNode_replaceChild getElementById_use_photo_btn addMessage
  showHomeScreen showChatScreen closePhotoModal retakePhoto handleAwaken
  handleCapture sendMessage sendMessage_callback usePhoto usePhoto_continue
  usePhoto_callback useUploadedPhoto useUploadedPhoto_continue
  useUploadedPhoto_callback beforeunload visibilitychange readAsDataURL
  handleFiles reader_onload_handler handleFiles_callback handleDrop
  handleFileSelect initAPI initAPI_continue initCamera initCamera_continue
  initGeolocation getCurrentPosition_continue initEventListeners
  DOMContentLoaded listener_body : handlers.

(** Splits a handler into its statements; [write_tac] is left to show that
    each assignment respects the relation. *)
Ltac respects_by write_tac :=
  autounfold with handlers;
  repeat first
    [ apply respects_ret; typeclasses eauto
    | apply respects_throw; typeclasses eauto
    | apply respects_eval; typeclasses eauto
    | apply respects_read; typeclasses eauto
    | apply respects_and_then; [ typeclasses eauto | | intros ? ]
    | apply respects_try_catchM; [ typeclasses eauto | | intros ? ]
    | apply respects_forEach; [ typeclasses eauto | intros ? ? ]
    | apply respects_write; solve [write_tac]
    | match goal with
      | |- respects _ (if ?b then _ else _) => destruct b
      | |- respects _ (match ?x with _ => _ end) => destruct x
      | |- respects _ (let _ := _ in _) => cbv zeta
      end
    | progress autounfold with handlers ].

(** ** File ingestion *)

Lemma forEach_readAsDataURL imageFiles : forall index s,
  exec (forEach (fun file index => readAsDataURL file index) imageFiles index) s
  = upd_pending (fun _ => pending s ++ readers index imageFiles) s.
Proof.
  induction imageFiles as [|f rest IH]; intros index s.
  - destruct s. unfold exec. simpl. rewrite app_nil_r. reflexivity.
  - unfold exec in *. simpl. unfold and_then, readAsDataURL, write. simpl.
    rewrite IH. destruct s. unfold upd_pending. simpl.
    rewrite <- app_assoc. reflexivity.
Qed.

(** C8: [handleFiles] keeps the entries whose type starts with [image/] and
    only them; when none is left it shows the notice and does nothing else:
    the state differs only by the [alert], so the preview overlay, the
    transcript and the use-photo button are as before and no file is being
    decoded; otherwise it starts one decoding per accepted file, in order. *)
Theorem handleFiles_filters (s : state) (files : list file) :
  let imageFiles := filter (fun f => image_typed f = true) files in
  let s' := exec (handleFiles files) s in
  (forall f, In f imageFiles <-> In f files /\ image_typed f = true) /\
  match imageFiles with
  | [] =>
      s' = upd_alerts (fun _ => alerts s ++ ["请选择图片文件！"]) s /\
      photoModal_active s' = photoModal_active s /\
      capturedPhoto_src s' = capturedPhoto_src s /\
      chatMessages s' = chatMessages s /\
      buttons s' = buttons s /\
      use_photo_btn s' = use_photo_btn s /\
      pending s' = pending s
  | _ :: _ =>
      s' = upd_pending (fun _ => pending s ++ readers 0 imageFiles) s
  end.
Proof.
  intros imageFiles s'. split.
  - intros f. subst imageFiles. rewrite <- !list_elem_of_In.
    rewrite list_elem_of_filter. tauto.
  - subst s'. unfold handleFiles.
    change (filter (fun f => startsWith "image/" (type f) = true) files)
      with imageFiles.
    destruct imageFiles as [|f rest]; cbn [length Nat.eqb].
    + unfold alert, exec, write. destruct s. cbn.
      repeat split; reflexivity.
    + apply forEach_readAsDataURL.
Qed.

(** ** The camera stream *)

#[local] Instance stays_live_preorder : PreOrder stays_live.
Proof. split; [intros s H; exact H | intros a b c H1 H2 H; auto]. Qed.

Lemma existsb_stopped_set_enabled flag tracks :
  existsb stopped (map (set_enabled flag) tracks) = existsb stopped tracks.
Proof.
  induction tracks as [|t tracks IH]; simpl; [reflexivity|].
  rewrite IH. unfold set_enabled. destruct (String.eqb (kind t) "video"); reflexivity.
Qed.

Lemma existsb_stopped_live kinds : existsb stopped (map live kinds) = false.
Proof. induction kinds as [|k kinds IH]; simpl; [reflexivity | exact IH]. Qed.

Lemma set_enabled_toggled flag tracks :
  Forall2 (toggled flag) tracks (map (set_enabled flag) tracks).
Proof.
  induction tracks as [|t tracks IH]; simpl; constructor; [|exact IH].
  unfold toggled, set_enabled.
  destruct (String.eqb (kind t) "video"); simpl; auto.
Qed.

Lemma set_enabled_idempotent flag tracks :
  map (set_enabled flag) (map (set_enabled flag) tracks)
  = map (set_enabled flag) tracks.
Proof.
  rewrite map_map. apply map_ext. intros t. unfold set_enabled.
  destruct (String.eqb (kind t) "video") eqn:Hk; simpl; rewrite ?Hk; reflexivity.
Qed.

Lemma visibilitychange_exec hidden s :
  exec (visibilitychange hidden) s
  = match currentStream s with
    | Some tracks =>
        upd_currentStream (fun _ => Some (map (set_enabled (negb hidden)) tracks)) s
    | None => s
    end.
Proof.
  unfold visibilitychange, exec, and_then, read. simpl.
  destruct hidden, (currentStream s); reflexivity.
Qed.

Ltac same_stream :=
  intros ? H; first [ exact H | cbv [any_stopped]; cbn; apply existsb_stopped_live ].

Lemma visibilitychange_stays_live hidden : respects stays_live (visibilitychange hidden).
Proof.
  intros s H. rewrite visibilitychange_exec. unfold any_stopped in *.
  destruct (currentStream s) as [tracks|] eqn:Hs; [|rewrite Hs; reflexivity].
  simpl. rewrite existsb_stopped_set_enabled. exact H.
Qed.

Ltac as_respects R :=
  match goal with
  | |- R ?s0 (exec ?m ?s0) => generalize s0; change (respects R m)
  end.

Lemma step_stays_live s e : e <> beforeunload_window -> stays_live s (step s e).
Proof.
  intros He. destruct e; simpl step; try as_respects stays_live.
  - respects_by same_stream.
  - respects_by same_stream.
  - respects_by same_stream.
  - intros H; exact H.
  - respects_by same_stream.
  - destruct (String.eqb key "Enter"); [|reflexivity].
    as_respects stays_live. respects_by same_stream.
  - respects_by same_stream.
  - respects_by same_stream.
  - destruct target_is_photoModal; [|reflexivity].
    as_respects stays_live. respects_by same_stream.
  - unfold dispatch_click. apply respects_fold; [typeclasses eauto|].
    intros l. destruct l; respects_by same_stream.
  - respects_by same_stream.
  - respects_by same_stream.
  - apply visibilitychange_stays_live.
  - congruence.
  - destruct (pending s !! n) as [t|]; [|reflexivity].
    destruct (resume t a) as [callback|] eqn:Hr; [|reflexivity].
    transitivity (upd_pending (delete n) s); [intros H; exact H|].
    as_respects stays_live.
    destruct t, a as [r|draw| |r|r|[loaded|]]; simpl in Hr; inversion Hr; subst;
      respects_by same_stream.
Qed.

Lemma run_stays_live events : forall s,
  ~ In beforeunload_window events -> stays_live s (run s events).
Proof.
  induction events as [|e events IH]; intros s Hno; [intros H; exact H|].
  unfold run in *. simpl.
  transitivity (step s e).
  - apply step_stays_live. intros ->. apply Hno. left. reflexivity.
  - apply IH. intros Hin. apply Hno. right. exact Hin.
Qed.

(** C9: a visibility change never stops the camera stream.  It keeps the
    stream and its tracks, changes nothing but the [enabled] flag of the
    video tracks, which becomes false when the page is hidden and true when
    it is shown, and repeating it changes nothing more; no sequence of
    events without the page teardown stops a track, and the teardown stops
    every track. *)
Theorem visibilitychange_never_stops (s : state) (hidden : bool) :
  let s' := step s (visibilitychange_document hidden) in
  match currentStream s with
  | Some tracks =>
      exists tracks',
        s' = upd_currentStream (fun _ => Some tracks') s /\
        Forall2 (toggled (negb hidden)) tracks tracks'
  | None => s' = s
  end /\
  any_stopped s' = any_stopped s /\
  step s' (visibilitychange_document hidden) = s' /\
  (forall events,
     ~ In beforeunload_window events ->
     any_stopped s = false -> any_stopped (run s events) = false) /\
  currentStream (step s beforeunload_window)
  = option_map (map stop) (currentStream s).
Proof.
  intros s'. subst s'. simpl step. rewrite !visibilitychange_exec.
  split; [|split; [|split; [|split]]].
  - destruct (currentStream s) as [tracks|]; [|reflexivity].
    eexists. split; [reflexivity | apply set_enabled_toggled].
  - unfold any_stopped.
    destruct (currentStream s) as [tracks|] eqn:Hs; [|rewrite Hs; reflexivity].
    simpl. apply existsb_stopped_set_enabled.
  - destruct (currentStream s) as [tracks|] eqn:Hs.
    + simpl. rewrite set_enabled_idempotent. destruct s; reflexivity.
    + rewrite Hs. reflexivity.
  - intros events Hno. apply run_stays_live. exact Hno.
  - unfold beforeunload, exec, and_then, read. simpl.
    destruct (currentStream s) as [tracks|] eqn:Hs; simpl;
      [reflexivity | exact Hs].
Qed.

Lemma visibilitychange_never_stops_witness :
  let s := upd_currentStream (fun _ => Some [live "video"; live "audio"]) initial_state in
  currentStream (step s (visibilitychange_document true))
  = Some [ {| kind := "video"; enabled := false; stopped := false |};
           live "audio" ] /\
  any_stopped
    (run s [ visibilitychange_document true; click_cameraFab "data:,";
             visibilitychange_document false; click_use_photo_btn ]) = false.
Proof.
  intros s.
  destruct (visibilitychange_never_stops s true) as [_ [_ [_ [Hrun _]]]].
  split; [reflexivity|].
  apply Hrun; [|reflexivity].
  simpl. intros [H|[H|[H|[H|[]]]]]; discriminate.
Defined.

(** ** Replies to a message and to a photo *)

(** C1, as stated, fails: in a session whose health probe succeeded, so
    that the gateway is available, sending a message never calls the chat
    operation; the only request ever sent is the health probe and the reply
    comes from the local scripted responder. *)
Lemma sendMessage_ignores_available_gateway :
  let s := session full_navigator
             [ settled 0 (Fetched health_ok);
               input_chatInput "你好";
               click_sendBtn;
               settled 2 (Random 0) ] in
  apiClient s = Some default_client /\
  chatMessages s = [ user_says "你好"; spirit_says "你好呀！很高兴见到你。" ] /\
  requests s = [ sent (checkHealth default_client) ] /\
  existsb is_chat_request (requests s) = false.
Proof. repeat split. Qed.

Lemma sendMessage_exec (s : state) :
  trim (chatInput_value s) <> "" ->
  exec sendMessage s
  = upd_pending
      (fun _ => pending s ++ [sendMessage_timeout (trim (chatInput_value s))])
      (upd_chatInput_value (fun _ => "")
         (appended (user_says (trim (chatInput_value s))) s)).
Proof.
  intros Hne. unfold sendMessage, exec, and_then, read. simpl.
  destruct (String.eqb_spec (trim (chatInput_value s)) "") as [Heq|_];
    [contradiction|].
  destruct s. reflexivity.
Qed.

(** C1, amended: for every call to [sendMessage] with non-empty trimmed
    text, whether or not the gateway is available, the user message is
    appended, the input is cleared and one callback is scheduled; no request
    is sent and the gateway's chat operation is not called; when the
    callback runs it appends one spirit message chosen by the local scripted
    responder and sends no request either. *)
Theorem sendMessage_replies_locally (s : state) :
  trim (chatInput_value s) <> "" ->
  let message := trim (chatInput_value s) in
  let s' := exec sendMessage s in
  s' = upd_pending (fun _ => pending s ++ [sendMessage_timeout message])
         (upd_chatInput_value (fun _ => "") (appended (user_says message) s)) /\
  requests s' = requests s /\
  apiClient s' = apiClient s /\
  forall (t : state) (draw : Z),
    valid_draw draw ->
    resume (sendMessage_timeout message) (Random draw)
      = Some (sendMessage_callback message draw) /\
    exists reply,
      In reply (candidate_set message) /\
      exec (sendMessage_callback message draw) t = appended (spirit_says reply) t.
Proof.
  intros Hne message s'. subst s'.
  rewrite (sendMessage_exec s Hne). fold message.
  split; [reflexivity|]. split; [reflexivity|]. split; [reflexivity|].
  intros t draw Hd. split; [reflexivity|].
  destruct (local_reply message draw Hd) as [reply [Heq Hin]].
  exists reply. split; [exact Hin|].
  unfold sendMessage_callback, addMessage, eval, exec, write. rewrite Heq.
  destruct t. reflexivity.
Qed.

Lemma sendMessage_replies_locally_witness :
  let s := upd_chatInput_value (fun _ => " 给我讲个故事 ")
             (upd_apiClient (fun _ => Some default_client) initial_state) in
  chatMessages (exec sendMessage s) = [ user_says "给我讲个故事" ] /\
  requests (exec sendMessage s) = [] /\
  pending (exec sendMessage s) = [ sendMessage_timeout "给我讲个故事" ].
Proof.
  intros s.
  assert (Hne : trim (chatInput_value s) <> "") by (vm_compute; discriminate).
  destruct (sendMessage_replies_locally s Hne) as [Hs [Hr _]].
  rewrite Hs. repeat split.
Defined.





Lemma usePhoto_effect (s : state) :
  let taken := capturedPhoto_src s in
  let s' := exec usePhoto s in
  match apiClient s with
  | None =>
      chatMessages s' = chatMessages s ++ [user_shows "我拍了一张照片" taken] /\
      requests s' = requests s /\
      pending s' = pending s ++ [usePhoto_timeout]
  | Some client =>
      chatMessages s'
      = chatMessages s ++ [ user_shows "我拍了一张照片" taken;
                            spirit_says "让我看看这是什么..." ] /\
      requests s' = requests s ++ [sent (identifyImage client taken "")] /\
      pending s' = pending s ++ [usePhoto_await client taken]
  end.
Proof.
  unfold usePhoto, exec, and_then, read, write, addMessage, eval, closePhotoModal,
    showChatScreen, await, setTimeout, user_shows, spirit_says. cbn.
  destruct (String.eqb (capturedPhoto_src s) ""); cbn;
    destruct (apiClient s) as [client|] eqn:Hc; cbn;
    rewrite <- ?app_assoc; repeat split.
Qed.

Lemma useUploadedPhoto_effect (s : state) (imageData : string) :
  let s' := exec (useUploadedPhoto imageData) s in
  match apiClient s with
  | None =>
      chatMessages s'
      = chatMessages s ++ [user_shows "我上传了一张图片" imageData] /\
      requests s' = requests s /\
      pending s' = pending s ++ [useUploadedPhoto_timeout]
  | Some client =>
      chatMessages s'
      = chatMessages s ++ [ user_shows "我上传了一张图片" imageData;
                            spirit_says "让我看看你上传了什么..." ] /\
      requests s' = requests s ++ [sent (identifyImage client imageData "")] /\
      pending s' = pending s ++ [useUploadedPhoto_await client imageData]
  end.
Proof.
  unfold useUploadedPhoto, exec, and_then, read, write, addMessage, eval,
    closePhotoModal, showChatScreen, await, setTimeout, user_shows,
    spirit_says. cbn.
  destruct (String.eqb imageData ""); cbn;
    destruct (apiClient s) as [client|] eqn:Hc; cbn;
    rewrite <- ?app_assoc; repeat split.
Qed.



(** ** Every turn of the event loop *)

Section Step.
Context (R : state -> state -> Prop) `{!PreOrder R}.
Hypothesis input_ok : forall f s, R s (upd_chatInput_value f s).
Hypothesis resumed_ok : forall f s, R s (upd_pending f s).
Hypothesis handleCapture_ok : forall frame, respects R (handleCapture frame).
Hypothesis screens_ok :
  respects R showHomeScreen /\ respects R showChatScreen /\
  respects R closePhotoModal.
Hypothesis sendMessage_ok : respects R sendMessage.
Hypothesis listener_ok : forall l, respects R (listener_body l).
Hypothesis handleFiles_ok : forall files, respects R (handleFiles files).
Hypothesis visibilitychange_ok : forall hidden, respects R (visibilitychange hidden).
Hypothesis callback_ok :
  forall t a callback, resume t a = Some callback -> respects R callback.

Lemma step_respects s e :
  (e = beforeunload_window -> respects R beforeunload) -> R s (step s e).
Proof.
  intros Hunload. destruct screens_ok as [Hhome [Hchat Hclose]].
  destruct e; simpl step.
  - apply Hchat.
  - apply handleCapture_ok.
  - apply Hhome.
  - apply input_ok.
  - apply sendMessage_ok.
  - destruct (String.eqb key "Enter"); [apply sendMessage_ok | reflexivity].
  - apply Hclose.
  - apply Hclose.
  - destruct target_is_photoModal; [apply Hclose | reflexivity].
  - unfold dispatch_click. apply respects_fold; [typeclasses eauto|].
    exact listener_ok.
  - apply handleFiles_ok.
  - apply handleFiles_ok.
  - apply visibilitychange_ok.
  - apply Hunload. reflexivity.
  - destruct (pending s !! n) as [t|]; [|reflexivity].
    destruct (resume t a) as [callback|] eqn:Hr; [|reflexivity].
    transitivity (upd_pending (delete n) s); [apply resumed_ok|].
    apply (callback_ok t a callback Hr).
Qed.

Lemma run_respects events : forall s,
  (In beforeunload_window events -> respects R beforeunload) ->
  R s (run s events).
Proof.
  induction events as [|e events IH]; intros s Hunload; [reflexivity|].
  unfold run in *. simpl.
  transitivity (step s e).
  - apply step_respects. intros ->. apply Hunload. left. reflexivity.
  - apply IH. intros Hin. apply Hunload. right. exact Hin.
Qed.
End Step.

Lemma run_app s events1 events2 :
  run s (events1 ++ events2) = run (run s events1) events2.
Proof. unfold run. apply fold_left_app. Qed.

(** ** Callbacks that run once *)

Section StepAt.
Context (R : state -> state -> Prop) `{!PreOrder R}.
Hypothesis input_ok : forall f s, R s (upd_chatInput_value f s).
Hypothesis handleCapture_ok : forall frame, respects R (handleCapture frame).
Hypothesis screens_ok :
  respects R showHomeScreen /\ respects R showChatScreen /\
  respects R closePhotoModal.
Hypothesis sendMessage_ok : respects R sendMessage.
Hypothesis listener_ok : forall l, respects R (listener_body l).
Hypothesis handleFiles_ok : forall files, respects R (handleFiles files).
Hypothesis visibilitychange_ok : forall hidden, respects R (visibilitychange hidden).
Hypothesis beforeunload_ok : respects R beforeunload.
Hypothesis callback_ok :
  forall s n t a callback,
    pending s !! n = Some t -> resume t a = Some callback ->
    R s (exec callback (upd_pending (delete n) s)).

Lemma step_respects_at s e : R s (step s e).
Proof.
  destruct screens_ok as [Hhome [Hchat Hclose]].
  destruct e; simpl step.
  - apply Hchat.
  - apply handleCapture_ok.
  - apply Hhome.
  - apply input_ok.
  - apply sendMessage_ok.
  - destruct (String.eqb key "Enter"); [apply sendMessage_ok | reflexivity].
  - apply Hclose.
  - apply Hclose.
  - destruct target_is_photoModal; [apply Hclose | reflexivity].
  - unfold dispatch_click. apply respects_fold; [typeclasses eauto|].
    exact listener_ok.
  - apply handleFiles_ok.
  - apply handleFiles_ok.
  - apply visibilitychange_ok.
  - apply beforeunload_ok.
  - destruct (pending s !! n) as [t|] eqn:Hn; [|reflexivity].
    destruct (resume t a) as [callback|] eqn:Hr; [|reflexivity].
    apply (callback_ok s n t a callback Hn Hr).
Qed.

Lemma run_respects_at events : forall s, R s (run s events).
Proof.
  induction events as [|e events IH]; intros s; [reflexivity|].
  unfold run in *. simpl.
  transitivity (step s e); [apply step_respects_at | apply IH].
Qed.
End StepAt.

#[local] Instance not_rescheduled_preorder p : PreOrder (not_rescheduled p).
Proof.
  split; [intros s; unfold not_rescheduled; lia|].
  intros a b c H1 H2. unfold not_rescheduled in *. lia.
Qed.

#[local] Instance written_by_preorder {A} p (field : state -> A) :
  PreOrder (written_by p field).
Proof.
  split.
  - intros s. split; [lia | reflexivity].
  - intros a b c [H1 F1] [H2 F2]. split; [lia|].
    intros Heq. rewrite F2 by lia. apply F1. lia.
Qed.

Lemma waiting_schedule p t s :
  waiting p (upd_pending (fun l => l ++ [t]) s)
  = waiting p s + (if p t then 1 else 0).
Proof.
  unfold waiting. cbn. rewrite filter_app, length_app. f_equal.
  rewrite filter_cons, filter_nil.
  destruct (p t); destruct (decide _); simpl; congruence.
Qed.

Lemma filter_delete_length {A} (P : A -> Prop) `{!forall x, Decision (P x)}
    (l : list A) : forall n x,
  l !! n = Some x ->
  length (filter P (delete n l)) + (if decide (P x) then 1 else 0)
  = length (filter P l).
Proof.
  induction l as [|y l IH]; intros [|n] x Hn; try discriminate.
  - injection Hn as ->. simpl. rewrite filter_cons.
    destruct (decide (P x)); simpl; lia.
  - simpl. rewrite !filter_cons.
    specialize (IH n x Hn).
    destruct (decide (P y)); simpl; lia.
Qed.

Lemma waiting_resumed p s n t :
  pending s !! n = Some t ->
  waiting p (upd_pending (delete n) s) + (if p t then 1 else 0) = waiting p s.
Proof.
  intros Hn. unfold waiting. cbn.
  rewrite <- (filter_delete_length (fun t => p t = true) (pending s) n t Hn).
  f_equal. destruct (decide (p t = true)) as [->|Hne]; [reflexivity|].
  destruct (p t); congruence.
Qed.

Ltac schedule_write :=
  intros ?; unfold not_rescheduled;
  first [ rewrite waiting_schedule; simpl; lia | exact (le_n _) ].

Ltac field_write :=
  intros ?; split;
  [ first [ rewrite waiting_schedule; simpl; lia | exact (le_n _) ]
  | intros _; reflexivity ].

Lemma callback_not_rescheduled p t a callback :
  (forall t', p t' = true ->
     t' = initCamera_await \/ t' = getCurrentPosition_callback \/
     exists client, t' = initAPI_await client) ->
  resume t a = Some callback -> respects (not_rescheduled p) callback.
Proof.
  intros Hp Hr.
  assert (Hm : forall message, p (sendMessage_timeout message) = false).
  { intros m. destruct (p _) eqn:E; [|reflexivity].
    destruct (Hp _ E) as [H|[H|[c H]]]; discriminate. }
  assert (Hh : forall d i, p (handleFiles_timeout d i) = false).
  { intros d i. destruct (p _) eqn:E; [|reflexivity].
    destruct (Hp _ E) as [H|[H|[c H]]]; discriminate. }
  destruct t, a as [r|draw| |r|r|[loaded|]]; simpl in Hr; inversion Hr; subst;
    respects_by ltac:(intros ?; unfold not_rescheduled;
                      first [ rewrite waiting_schedule, ?Hm, ?Hh; simpl; lia
                            | exact (le_n _) ]).
Qed.

Lemma beforeunload_exec s :
  exec beforeunload s
  = match currentStream s with
    | Some tracks => upd_currentStream (fun _ => Some (map stop tracks)) s
    | None => s
    end.
Proof.
  unfold beforeunload, exec, and_then, read. simpl.
  destruct (currentStream s); reflexivity.
Qed.

(** Resuming a callback of kind [p] lowers the number of those waiting;
    resuming another one leaves [field] alone when its callback does. *)
Lemma resumed_written_by {A} p (field : state -> A) s n t a callback :
  (forall t', p t' = true ->
     t' = initCamera_await \/ t' = getCurrentPosition_callback \/
     exists client, t' = initAPI_await client) ->
  (forall f s, field (upd_pending f s) = field s) ->
  (p t = false -> respects (written_by p field) callback) ->
  pending s !! n = Some t -> resume t a = Some callback ->
  written_by p field s (exec callback (upd_pending (delete n) s)).
Proof.
  intros Hp Hframe Hcb Hn Hr.
  pose proof (waiting_resumed p s n t Hn) as Hw.
  pose proof (callback_not_rescheduled p t a callback Hp Hr
                (upd_pending (delete n) s)) as Hle.
  unfold not_rescheduled in Hle.
  destruct (p t) eqn:Hpt.
  - split; [lia | intros Heq; lia].
  - transitivity (upd_pending (delete n) s).
    + split; [lia | intros _; apply Hframe].
    + apply (Hcb eq_refl).
Qed.

Ltac field_callbacks :=
  intros ? ? t a ? Hlookup Hresume;
  refine (resumed_written_by _ _ _ _ _ _ _ _ _ _ Hlookup Hresume);
  [ intros t' Ht'; destruct t'; try discriminate Ht'; eauto
  | reflexivity
  | intros Hpt; destruct t, a as [r|draw| |r|r|[loaded|]];
      simpl in Hresume; inversion Hresume; subst;
      first [ discriminate Hpt | respects_by field_write ] ].

(** *** The health probe *)

Lemma run_written_by_probe s events :
  written_by is_probe_task apiClient s (run s events).
Proof.
  apply (run_respects_at (written_by is_probe_task apiClient)).
  - intros f. field_write.
  - intros frame. respects_by field_write.
  - split; [|split]; respects_by field_write.
  - respects_by field_write.
  - intros l. destruct l; respects_by field_write.
  - intros files. respects_by field_write.
  - intros hidden. respects_by field_write.
  - respects_by field_write.
  - field_callbacks.
Qed.

Lemma step_settled s n t a callback :
  pending s !! n = Some t -> resume t a = Some callback ->
  step s (settled n a) = exec callback (upd_pending (delete n) s).
Proof. intros Hn Hr. cbn [step]. rewrite Hn, Hr. reflexivity. Qed.

Lemma initAPI_continue_succeeded client fetched s :
  probe_succeeded fetched = true ->
  exec (initAPI_continue client fetched) s = s.
Proof.
  intros Hok. unfold initAPI_continue, exec, try_catchM, and_then, eval, write.
  destruct fetched as [[ok_flag [data|e]]|e]; try discriminate Hok.
  destruct data; try discriminate Hok. cbn in *. rewrite Hok. reflexivity.
Qed.

(** A probe is pending only in a page in which [new APIClient()] returned,
    and it is pending at most once. *)
Lemma loaded_probe_waiting nav :
  waiting is_probe_task (after_load nav) = probes_of nav /\
  apiClient (after_load nav)
  = if APIClient_defined nav then Some default_client else None.
Proof. destruct nav as [[] [] []]; split; reflexivity. Qed.

Lemma probe_pending_defined nav events n client :
  pending (session nav events) !! n = Some (initAPI_await client) ->
  APIClient_defined nav = true.
Proof.
  intros Hn.
  pose proof (waiting_resumed is_probe_task _ n _ Hn) as Hw.
  cbn [is_probe_task] in Hw.
  destruct (run_written_by_probe (after_load nav) events) as [Hle _].
  change (run (after_load nav) events) with (session nav events) in Hle.
  destruct (loaded_probe_waiting nav) as [H0 _]. unfold probes_of in H0.
  destruct (APIClient_defined nav); [reflexivity | lia].
Qed.

Lemma probe_pending_client nav events n client :
  pending (session nav events) !! n = Some (initAPI_await client) ->
  apiClient (session nav events) = Some default_client /\
  waiting is_probe_task (upd_pending (delete n) (session nav events)) = 0.
Proof.
  intros Hn.
  pose proof (probe_pending_defined nav events n client Hn) as Hdefined.
  pose proof (waiting_resumed is_probe_task _ n _ Hn) as Hw.
  cbn [is_probe_task] in Hw.
  destruct (run_written_by_probe (after_load nav) events) as [Hle Hfield].
  change (run (after_load nav) events) with (session nav events) in Hle, Hfield.
  destruct (loaded_probe_waiting nav) as [H0 Hc].
  unfold probes_of in H0. rewrite Hdefined in H0, Hc.
  split; [|lia].
  rewrite Hfield by lia. exact Hc.
Qed.

(** ** The gateway after a failed health probe *)

#[local] Instance stays_off_preorder : PreOrder stays_off.
Proof.
  split.
  - intros s H. split; [exact H | reflexivity].
  - intros a b c Hab Hbc Ha. destruct (Hab Ha) as [Hb Hr].
    destruct (Hbc Hb) as [Hc Hr']. split; [exact Hc | congruence].
Qed.

#[local] Instance keeps_probes_sent_preorder k : PreOrder (keeps_probes_sent k).
Proof. split; [intros s H; exact H | intros a b c H1 H2 H; auto]. Qed.

Ltac off_write := intros ? H; split; [first [exact H | reflexivity] | reflexivity].

Lemma listener_keeps_apiClient l s :
  apiClient (exec (listener_body l) s) = apiClient s.
Proof.
  destruct l as [|imageData]; simpl listener_body;
    unfold usePhoto, useUploadedPhoto, exec, and_then, read, write, addMessage, eval,
      closePhotoModal, showChatScreen, setTimeout, await; cbn;
    match goal with
    | |- context [String.eqb ?x ""] => destruct (String.eqb x "")
    end; cbn; destruct (apiClient s) eqn:Hc; cbn; exact Hc.
Qed.

Lemma listener_requests l s :
  match apiClient s with
  | None => requests (exec (listener_body l) s) = requests s
  | Some client =>
      exists imageData,
        requests (exec (listener_body l) s)
        = requests s ++ [sent (identifyImage client imageData "")]
  end.
Proof.
  destruct l as [|imageData]; simpl listener_body.
  - pose proof (usePhoto_effect s) as He. cbv zeta in He.
    destruct (apiClient s); destruct He as [_ [Hr _]]; [eexists|]; exact Hr.
  - pose proof (useUploadedPhoto_effect s imageData) as He. cbv zeta in He.
    destruct (apiClient s); destruct He as [_ [Hr _]]; [eexists|]; exact Hr.
Qed.

Lemma listener_stays_off l : respects stays_off (listener_body l).
Proof.
  intros s H. split.
  - rewrite listener_keeps_apiClient. exact H.
  - pose proof (listener_requests l s) as Hr. rewrite H in Hr. exact Hr.
Qed.

Lemma callback_stays_off t a callback :
  resume t a = Some callback -> respects stays_off callback.
Proof.
  intros Hr.
  destruct t, a as [r|draw| |r|r|[loaded|]]; simpl in Hr; inversion Hr; subst;
    respects_by off_write.
Qed.

Lemma step_stays_off s e : stays_off s (step s e).
Proof.
  apply step_respects; try typeclasses eauto.
  - intros f. off_write.
  - intros f. off_write.
  - intros frame. respects_by off_write.
  - split; [|split]; respects_by off_write.
  - respects_by off_write.
  - exact listener_stays_off.
  - intros files. respects_by off_write.
  - intros hidden. respects_by off_write.
  - exact callback_stays_off.
  - intros _. respects_by off_write.
Qed.

Ltac probe_write :=
  intros ? [Hc Hp]; split; [first [exact Hc | left; reflexivity] | exact Hp].

Lemma health_probes_identify s imageData :
  length (filter (fun r => is_health_probe r = true)
            (requests s ++ [sent (identifyImage default_client imageData "")]))
  = health_probes s.
Proof.
  unfold health_probes. rewrite filter_app, length_app. simpl. lia.
Qed.

Lemma listener_keeps_probes_sent k l :
  respects (keeps_probes_sent k) (listener_body l).
Proof.
  intros s [Hc Hp]. split; [rewrite listener_keeps_apiClient; exact Hc|].
  pose proof (listener_requests l s) as Hr.
  destruct Hc as [Hc|Hc]; rewrite Hc in Hr.
  - unfold health_probes in *. rewrite Hr. exact Hp.
  - destruct Hr as [imageData Hr]. unfold health_probes at 1. rewrite Hr.
    rewrite health_probes_identify. exact Hp.
Qed.

Lemma callback_keeps_probes_sent k t a callback :
  resume t a = Some callback -> respects (keeps_probes_sent k) callback.
Proof.
  intros Hr.
  destruct t, a as [r|draw| |r|r|[loaded|]]; simpl in Hr; inversion Hr; subst;
    respects_by probe_write.
Qed.

Lemma loaded_probes_sent nav : probes_sent (probes_of nav) (after_load nav).
Proof.
  destruct nav as [[] [] []]; split;
    first [left; reflexivity | right; reflexivity | reflexivity].
Qed.

Lemma session_probes_sent nav events :
  probes_sent (probes_of nav) (session nav events).
Proof.
  unfold session. apply (run_respects (keeps_probes_sent (probes_of nav))).
  - intros f. probe_write.
  - intros f. probe_write.
  - intros frame. respects_by probe_write.
  - split; [|split]; respects_by probe_write.
  - respects_by probe_write.
  - exact (listener_keeps_probes_sent _).
  - intros files. respects_by probe_write.
  - intros hidden. respects_by probe_write.
  - exact (callback_keeps_probes_sent _).
  - intros _. respects_by probe_write.
  - apply loaded_probes_sent.
Qed.

Lemma run_stays_off events s : stays_off s (run s events).
Proof.
  apply (run_respects stays_off).
  - intros f. off_write.
  - intros f. off_write.
  - intros frame. respects_by off_write.
  - split; [|split]; respects_by off_write.
  - respects_by off_write.
  - exact listener_stays_off.
  - intros files. respects_by off_write.
  - intros hidden. respects_by off_write.
  - exact callback_stays_off.
  - intros _. respects_by off_write.
Qed.

Lemma initAPI_continue_failed client fetched s :
  probe_succeeded fetched = false ->
  apiClient (exec (initAPI_continue client fetched) s) = None.
Proof.
  intros Hf. unfold initAPI_continue, exec, try_catchM, and_then, eval, write.
  destruct fetched as [[ok_flag [data|e]]|e]; cbn; try reflexivity.
  destruct data; cbn in *; try reflexivity.
  rewrite Hf. reflexivity.
Qed.

(** C3, as stated, fails: gateway initialization does not always perform a
    health probe.  In a page where the class [APIClient] is not defined
    (api.js declares [const apiClient] and script.js [let apiClient] at the
    top level, so with script.js loaded first api.js is rejected),
    [new APIClient()] throws inside the [try] of [initAPI]: the gateway is
    off from the load on although no probe failed, and no probe is ever
    sent. *)
Lemma initAPI_without_APIClient_sends_no_probe :
  let loaded := session navigator_without_APIClient [] in
  let s := session navigator_without_APIClient
             [ settled 0 (Media (Normal ["video"]));
               click_cameraFab "data:image/png;base64,AAAA";
               click_use_photo_btn ] in
  health_probes loaded = 0 /\ apiClient loaded = None /\
  waiting is_probe_task loaded = 0 /\
  health_probes s = 0 /\ requests s = [] /\ apiClient s = None.
Proof. repeat split. Qed.

Lemma session_without_APIClient nav events :
  APIClient_defined nav = false ->
  apiClient (session nav events) = None /\ requests (session nav events) = [].
Proof.
  intros Hnav.
  assert (Hload : apiClient (after_load nav) = None /\ requests (after_load nav) = []).
  { destruct nav as [[] [] []]; try discriminate Hnav; split; reflexivity. }
  destruct Hload as [Hoff Hnone].
  destruct (run_stays_off events (after_load nav) Hoff) as [Hs Hr].
  split; [exact Hs | rewrite <- Hnone; exact Hr].
Qed.

(** C3, amended: a page sends at most one health probe in a whole session:
    exactly one when the class [APIClient] is defined, and none when
    [new APIClient()] throws, in which case the client reference is null
    from the load on and no request is ever sent.  When the answer to the
    probe is a failure (the request fails, the body does not decode, or the
    decoded status is not ['ok']) the client reference is cleared, and from
    then on, whatever events follow, it stays cleared, no request at all is
    sent, so the probe is not repeated, and using a photo schedules the
    local reply instead of calling the gateway. *)
Theorem failed_probe_disables_gateway (nav : navigator)
    (before after : list event) (n : nat) (client : APIClient)
    (fetched : completion response) :
  pending (session nav before) !! n = Some (initAPI_await client) ->
  probe_succeeded fetched = false ->
  let failed := step (session nav before) (settled n (Fetched fetched)) in
  let s := run failed after in
  (forall page events,
     health_probes (session page events)
     = if APIClient_defined page then 1 else 0) /\
  (forall page events,
     APIClient_defined page = false ->
     apiClient (session page events) = None /\
     requests (session page events) = []) /\
  APIClient_defined nav = true /\
  apiClient failed = None /\
  apiClient s = None /\
  requests s = requests failed /\
  health_probes s = 1 /\
  requests (exec usePhoto s) = requests s /\
  pending (exec usePhoto s) = pending s ++ [usePhoto_timeout] /\
  (forall imageData,
     requests (exec (useUploadedPhoto imageData) s) = requests s /\
     pending (exec (useUploadedPhoto imageData) s)
     = pending s ++ [useUploadedPhoto_timeout]).
Proof.
  intros Hpending Hfailed failed s.
  pose proof (probe_pending_defined nav before n client Hpending) as Hdefined.
  assert (Hoff : apiClient failed = None).
  { subst failed. simpl step. rewrite Hpending. simpl resume.
    apply initAPI_continue_failed. exact Hfailed. }
  destruct (run_stays_off after failed Hoff) as [Hs Hr]. fold s in Hs, Hr.
  split; [intros page events; apply session_probes_sent|].
  split; [exact session_without_APIClient|].
  split; [exact Hdefined|].
  split; [exact Hoff|]. split; [exact Hs|]. split; [exact Hr|].
  split.
  { replace s with (session nav (before ++ settled n (Fetched fetched) :: after)).
    - destruct (session_probes_sent nav
                  (before ++ settled n (Fetched fetched) :: after)) as [_ Hp].
      unfold probes_of in Hp. rewrite Hdefined in Hp. exact Hp.
    - unfold session. rewrite run_app. reflexivity. }
  pose proof (usePhoto_effect s) as Hu. cbv zeta in Hu. rewrite Hs in Hu.
  destruct Hu as [_ [Hur Hup]].
  split; [exact Hur|]. split; [exact Hup|].
  intros imageData.
  pose proof (useUploadedPhoto_effect s imageData) as Hu. cbv zeta in Hu.
  rewrite Hs in Hu. destruct Hu as [_ [Hur' Hup']].
  split; [exact Hur' | exact Hup'].
Qed.

Lemma failed_probe_disables_gateway_witness :
  let fetched := Throw (mkExn "TypeError" "Failed to fetch") in
  let after := [ settled 0 (Media (Normal ["video"]));
                 click_cameraFab "data:image/png;base64,AAAA";
                 click_use_photo_btn ] in
  let failed := step (session full_navigator []) (settled 0 (Fetched fetched)) in
  let s := run failed after in
  apiClient s = None /\ health_probes s = 1 /\ requests s = requests failed.
Proof.
  intros fetched after failed s.
  destruct (failed_probe_disables_gateway full_navigator [] after 0
              default_client fetched)
    as [_ [_ [_ [_ [Hs [Hr [Hp _]]]]]]]; [reflexivity | reflexivity |].
  split; [exact Hs|]. split; [exact Hp | exact Hr].
Defined.

(** ** The use-photo button after file ingestion *)

Lemma alter_last {A} (f : A -> A) (l : list A) (x : A) :
  alter f (length l) (l ++ [x]) = l ++ [f x].
Proof.
  rewrite alter_app_r_alt by lia. rewrite Nat.sub_diag. reflexivity.
Qed.

Lemma handleFiles_callback_first (s : state) (imageData : string) :
  use_photo_btn s = usePhotoBtn ->
  handleFiles_callback imageData 0 s
  = (Normal tt,
     upd_buttons
       (fun _ => buttons s ++ [[ useUploadedPhoto_listener imageData;
                                 useUploadedPhoto_listener imageData ]])
       (upd_use_photo_btn (fun _ => length (buttons s))
          (upd_photoModal_active (fun _ => true)
             (upd_capturedPhoto_src (fun _ => imageData) s)))).
Proof.
  destruct s. cbn [use_photo_btn]. intros ->.
  cbv [handleFiles_callback and_then write read cloneNode
       parentNode_replaceChild addEventListener getElementById_use_photo_btn
       ret throw]. cbn.
  f_equal.
  cbv [upd_buttons upd_use_photo_btn upd_photoModal_active
       upd_capturedPhoto_src]. cbn.
  f_equal. rewrite !alter_last. reflexivity.
Qed.

(** The first preview of a session replaces the button found at load time
    by a clone that carries two listeners for the previewed image; one click
    then calls [useUploadedPhoto] twice with it. *)
Lemma first_preview_binds_twice (s : state) (imageData : string) :
  use_photo_btn s = usePhotoBtn ->
  let s' := exec (handleFiles_callback imageData 0) s in
  use_photo_listeners s'
  = [ useUploadedPhoto_listener imageData;
      useUploadedPhoto_listener imageData ] /\
  step s' click_use_photo_btn
  = exec (useUploadedPhoto imageData) (exec (useUploadedPhoto imageData) s').
Proof.
  intros Hdoc s'. subst s'. unfold exec.
  rewrite (handleFiles_callback_first s imageData Hdoc). cbn [snd].
  assert (Hl : use_photo_listeners
                 (upd_buttons
                    (fun _ => buttons s ++
                              [[ useUploadedPhoto_listener imageData;
                                 useUploadedPhoto_listener imageData ]])
                    (upd_use_photo_btn (fun _ => length (buttons s))
                       (upd_photoModal_active (fun _ => true)
                          (upd_capturedPhoto_src (fun _ => imageData) s))))
               = [ useUploadedPhoto_listener imageData;
                   useUploadedPhoto_listener imageData ]).
  { unfold use_photo_listeners. cbn [buttons use_photo_btn upd_buttons
      upd_use_photo_btn upd_photoModal_active upd_capturedPhoto_src].
    rewrite lookup_app_r by lia. rewrite Nat.sub_diag. reflexivity. }
  split; [exact Hl|].
  simpl step. unfold dispatch_click. fold (use_photo_listeners
    (upd_buttons
       (fun _ => buttons s ++
                 [[ useUploadedPhoto_listener imageData;
                    useUploadedPhoto_listener imageData ]])
       (upd_use_photo_btn (fun _ => length (buttons s))
          (upd_photoModal_active (fun _ => true)
             (upd_capturedPhoto_src (fun _ => imageData) s))))).
  rewrite Hl. reflexivity.
Qed.

(** A later preview finds the button of load time out of the document:
    reaching [parentNode.replaceChild] throws, after the preview image was
    set, and the button in the document keeps its listeners. *)
Lemma later_preview_throws (s : state) (imageData : string) :
  use_photo_btn s <> usePhotoBtn ->
  use_photo_btn s < length (buttons s) ->
  let s' := exec (handleFiles_callback imageData 0) s in
  fst (handleFiles_callback imageData 0 s)
  = Throw (TypeError_read "null" "replaceChild") /\
  capturedPhoto_src s' = imageData /\
  photoModal_active s' = true /\
  use_photo_listeners s' = use_photo_listeners s.
Proof.
  intros Hdoc Hlt s'. subst s'. destruct s. cbn [use_photo_btn buttons] in *.
  cbv [exec handleFiles_callback and_then write read cloneNode
       parentNode_replaceChild addEventListener getElementById_use_photo_btn
       ret throw]. cbn.
  destruct (Nat.eqb_spec use_photo_btn0 usePhotoBtn) as [Heq|_];
    [contradiction|].
  cbn. repeat split. unfold use_photo_listeners. cbn.
  rewrite lookup_app_l by exact Hlt. reflexivity.
Qed.

(** C10 fails on the code after a second ingestion.  A first file list is
    dropped, read and previewed: the button carries two listeners for its
    image.  A second list is dropped, read and previewed: the preview shows
    the second image, the callback throws at [parentNode.replaceChild], the
    button still carries the two listeners of the first image, and a click
    sends the first image twice. *)
Theorem second_ingestion_keeps_first_listeners :
  let first :=
    session bare_navigator
      [ settled 0 (Fetched (Throw (mkExn "TypeError" "Failed to fetch")));
        drop_dropZone [first_file];
        settled 0 (Loaded (Some first_data));
        settled 0 Elapsed ] in
  let before_preview :=
    run first [ click_closeModal;
                drop_dropZone [second_file];
                settled 0 (Loaded (Some second_data)) ] in
  let second := step before_preview (settled 0 Elapsed) in
  use_photo_listeners first
  = [ useUploadedPhoto_listener first_data;
      useUploadedPhoto_listener first_data ] /\
  pending before_preview = [ handleFiles_timeout second_data 0 ] /\
  fst (handleFiles_callback second_data 0
         (upd_pending (delete 0) before_preview))
  = Throw (TypeError_read "null" "replaceChild") /\
  capturedPhoto_src second = second_data /\
  photoModal_active second = true /\
  use_photo_listeners second
  = [ useUploadedPhoto_listener first_data;
      useUploadedPhoto_listener first_data ] /\
  chatMessages (step second click_use_photo_btn)
  = [ user_shows "我上传了一张图片" first_data;
      user_shows "我上传了一张图片" first_data ].
Proof. repeat split. Qed.

(** * Further properties of the code *)

(** ** The transcript is append-only *)

#[local] Instance grows_preorder : PreOrder grows.
Proof.
  split.
  - intros s. exists []. rewrite app_nil_r. reflexivity.
  - intros a b c [l1 H1] [l2 H2]. exists (l1 ++ l2).
    rewrite H2, H1, app_assoc. reflexivity.
Qed.

Ltac grows_write :=
  intros ?; first [ eexists; cbn; reflexivity
                  | exists []; cbn; rewrite app_nil_r; reflexivity ].

Lemma callback_grows t a callback :
  resume t a = Some callback -> respects grows callback.
Proof.
  intros Hr.
  destruct t, a as [r|draw| |r|r|[loaded|]]; simpl in Hr; inversion Hr; subst;
    respects_by grows_write.
Qed.

(** Whatever the events and the answers of the environment, a message once
    in the transcript stays where it is: every turn of the event loop, the
    page teardown included, leaves the transcript as it was or appends to
    it. *)
Theorem transcript_append_only (s : state) (events : list event) :
  exists added, chatMessages (run s events) = chatMessages s ++ added.
Proof.
  apply (run_respects grows).
  - intros f. grows_write.
  - intros f. grows_write.
  - intros frame. respects_by grows_write.
  - split; [|split]; respects_by grows_write.
  - respects_by grows_write.
  - intros l. destruct l; respects_by grows_write.
  - intros files. respects_by grows_write.
  - intros hidden. respects_by grows_write.
  - exact callback_grows.
  - intros _. respects_by grows_write.
Qed.

(** ** The requests a page sends *)

#[local] Instance keeps_allowed_requests_preorder : PreOrder keeps_allowed_requests.
Proof. split; [intros s H; exact H | intros a b c H1 H2 H; auto]. Qed.

Ltac allowed_write :=
  intros ? [Hclient Hsent];
  split; [first [exact Hclient | left; reflexivity] | exact Hsent].

Lemma listener_keeps_allowed_requests l :
  respects keeps_allowed_requests (listener_body l).
Proof.
  intros s [Hc Hr]. split; [rewrite listener_keeps_apiClient; exact Hc|].
  pose proof (listener_requests l s) as Hl.
  destruct Hc as [Hc|Hc]; rewrite Hc in Hl.
  - rewrite Hl. exact Hr.
  - destruct Hl as [imageData Hl]. rewrite Hl.
    apply Forall_app. split; [exact Hr|].
    constructor; [|constructor]. right. exists imageData. reflexivity.
Qed.

Lemma callback_keeps_allowed_requests t a callback :
  resume t a = Some callback -> respects keeps_allowed_requests callback.
Proof.
  intros Hr.
  destruct t, a as [r|draw| |r|r|[loaded|]]; simpl in Hr; inversion Hr; subst;
    respects_by allowed_write.
Qed.

Lemma session_only_allowed_requests nav events :
  only_allowed_requests (session nav events).
Proof.
  unfold session. apply (run_respects keeps_allowed_requests).
  - intros f. allowed_write.
  - intros f. allowed_write.
  - intros frame. respects_by allowed_write.
  - split; [|split]; respects_by allowed_write.
  - respects_by allowed_write.
  - exact listener_keeps_allowed_requests.
  - intros files. respects_by allowed_write.
  - intros hidden. respects_by allowed_write.
  - exact callback_keeps_allowed_requests.
  - intros _. respects_by allowed_write.
  - destruct nav as [[] [] []];
      (split; [first [right; reflexivity | left; reflexivity]|]);
      first [ constructor; [left; reflexivity | constructor] | constructor ].
Qed.

(** In every session, whatever the events and the answers of the
    environment, each request the page sends is the health probe (a GET to
    the health endpoint) or an identify call (a POST to the identify
    endpoint with the image and an empty text); the chat endpoint is never
    requested. *)
Theorem session_never_calls_chat (nav : navigator) (events : list event) :
  Forall (fun r =>
            (url r = "http://localhost:5000/health" /\ method r = "GET" /\
             body r = None) \/
            (exists imageData,
               url r = "http://localhost:5000/api/identify" /\
               method r = "POST" /\
               headers r = [("Content-Type", "application/json")] /\
               body r = Some (VObj [("image", VStr imageData);
                                    ("text", VStr "")])))
         (requests (session nav events)) /\
  existsb is_chat_request (requests (session nav events)) = false.
Proof.
  destruct (session_only_allowed_requests nav events) as [_ Hall].
  split.
  - eapply Forall_impl; [exact Hall|].
    intros r [->|[imageData ->]]; [left | right; exists imageData];
      repeat split.
  - induction Hall as [|r rs Hr _ IH]; [reflexivity|].
    simpl. rewrite IH. destruct Hr as [->|[imageData ->]]; reflexivity.
Qed.

(** ** What the gateway methods return *)

Lemma identifyImage_settle this imageBase64 text fetched :
  settle (identifyImage this imageBase64 text) fetched
  = match fetched with
    | Throw e => Throw e
    | Normal response =>
        match json response with
        | Throw e => Throw e
        | Normal data =>
            if ok response then Normal data
            else match get data "error" with
                 | Throw e => Throw e
                 | Normal server_error =>
                     match ToString (or_else server_error (VStr "识别失败")) with
                     | Throw e => Throw e
                     | Normal reason => Throw (Error reason)
                     end
                 end
        end
    end.
Proof.
  destruct fetched as [[ok_flag [data|e]]|e]; try reflexivity.
  destruct ok_flag; simpl; [reflexivity|].
  destruct (get data "error") as [server_error|e]; [|reflexivity].
  simpl. destruct (ToString (or_else server_error _)); reflexivity.
Qed.

Lemma chat_settle this msg image context fetched :
  settle (chat this msg image context) fetched
  = match fetched with
    | Throw e => Throw e
    | Normal response =>
        match json response with
        | Throw e => Throw e
        | Normal data =>
            if ok response then Normal data
            else match get data "error" with
                 | Throw e => Throw e
                 | Normal server_error =>
                     match ToString (or_else server_error (VStr "聊天失败")) with
                     | Throw e => Throw e
                     | Normal reason => Throw (Error reason)
                     end
                 end
        end
    end.
Proof.
  destruct fetched as [[ok_flag [data|e]]|e]; try reflexivity.
  destruct ok_flag; simpl; [reflexivity|].
  destruct (get data "error") as [server_error|e]; [|reflexivity].
  simpl. destruct (ToString (or_else server_error _)); reflexivity.
Qed.

(** [identifyImage] and [chat] return a value exactly when the request was
    answered with a success status and a body that decodes, and the value
    is then the decoded body (even [null]); in every other case they throw:
    a rejected [fetch] and a failed decoding are rethrown as they are, and
    nothing is ever returned for a non-success status. *)
Theorem gateway_returns_iff_ok (this : APIClient)
    (imageBase64 text msg context : string) (image : value)
    (fetched : completion response) (data : value) :
  (settle (identifyImage this imageBase64 text) fetched = Normal data <->
   exists response,
     fetched = Normal response /\ ok response = true /\
     json response = Normal data) /\
  (settle (chat this msg image context) fetched = Normal data <->
   exists response,
     fetched = Normal response /\ ok response = true /\
     json response = Normal data) /\
  (forall e,
     fetched = Throw e ->
     settle (identifyImage this imageBase64 text) fetched = Throw e /\
     settle (chat this msg image context) fetched = Throw e) /\
  (forall response e,
     fetched = Normal response -> json response = Throw e ->
     settle (identifyImage this imageBase64 text) fetched = Throw e /\
     settle (chat this msg image context) fetched = Throw e).
Proof.
  rewrite identifyImage_settle, chat_settle.
  assert (Hiff : forall generic,
    match fetched with
    | Throw e => Throw e
    | Normal response =>
        match json response with
        | Throw e => Throw e
        | Normal data0 =>
            if ok response then Normal data0
            else match get data0 "error" with
                 | Throw e => Throw e
                 | Normal server_error =>
                     match ToString (or_else server_error (VStr generic)) with
                     | Throw e => Throw e
                     | Normal reason => Throw (Error reason)
                     end
                 end
        end
    end = Normal data <->
    exists response,
      fetched = Normal response /\ ok response = true /\
      json response = Normal data).
  { intros generic. split.
    - destruct fetched as [[ok_flag [data0|e]]|e]; simpl; try discriminate.
      destruct ok_flag;
        [|destruct (get data0 "error") as [server_error|e];
          [destruct (ToString (or_else server_error (VStr generic)))|];
          discriminate].
      intros [= ->]. eexists. repeat split.
    - intros [response [-> [Hok Hjson]]]. rewrite Hjson, Hok. reflexivity. }
  split; [apply Hiff|]. split; [apply Hiff|]. split.
  - intros e ->. split; reflexivity.
  - intros response e -> Hjson. rewrite Hjson. split; reflexivity.
Qed.

Lemma gateway_returns_iff_ok_witness :
  settle (identifyImage default_client "data:image/png;base64,AAAA" "")
         (Throw (mkExn "TypeError" "Failed to fetch"))
  = Throw (mkExn "TypeError" "Failed to fetch").
Proof.
  destruct (gateway_returns_iff_ok default_client "data:image/png;base64,AAAA"
              "" "" "" VNull (Throw (mkExn "TypeError" "Failed to fetch")) VNull)
    as [_ [_ [Hrej _]]].
  destruct (Hrej _ eq_refl) as [Hi _]. exact Hi.
Defined.

(** ** The reply to an identified photo *)

Lemma useUploadedPhoto_continue_same client imageData fetched :
  useUploadedPhoto_continue client imageData fetched
  = usePhoto_continue client imageData fetched.
Proof. reflexivity. Qed.




(** ** Every canned reply can be drawn *)

(** A draw that is a multiple of [2 ^ 26] gives a product with an array
    length of at most [2 ^ 26] that is a double: nothing is rounded. *)
Lemma random_index_onto (n i : nat) :
  i < n -> (Z.of_nat n <= 2 ^ 26)%Z ->
  exists draw, valid_draw draw /\ random_index draw n = i.
Proof.
  intros Hi Hn.
  set (N := Z.of_nat n). set (I := Z.of_nat i).
  assert (HN : (0 < N)%Z) by (subst N; lia).
  assert (HI : (0 <= I < N)%Z) by (subst N I; lia).
  set (q := ((I * 2 ^ 27 + N - 1) / N)%Z).
  assert (Hlow : (I * 2 ^ 27 <= q * N)%Z).
  { pose proof (Z.mod_pos_bound (I * 2 ^ 27 + N - 1) N HN) as H2.
    pose proof (Z.div_mod (I * 2 ^ 27 + N - 1) N ltac:(lia)) as H3.
    fold q in H3. lia. }
  assert (Hhigh : (q * N <= I * 2 ^ 27 + N - 1)%Z).
  { subst q. rewrite Z.mul_comm. apply Z.mul_div_le. exact HN. }
  assert (Hq : (0 <= q < 2 ^ 27)%Z).
  { split; [apply Z.div_pos; lia|].
    apply Z.div_lt_upper_bound; [exact HN|]. nia. }
  exists (2 ^ 26 * q)%Z. split.
  - unfold valid_draw. change (2 ^ 53)%Z with (2 ^ 26 * 2 ^ 27)%Z. nia.
  - unfold random_index. fold N.
    assert (Hexact : round_to_double (2 ^ 26 * q * N)%Z = (2 ^ 26 * q * N)%Z).
    { apply (round_to_double_multiple _ 26); [lia| |].
      - destruct (Z.eq_dec (2 ^ 26 * q * N)%Z 0%Z) as [H0|H0];
          [rewrite H0; simpl; lia|].
        assert (Hlog : (Z.log2 (2 ^ 26 * q * N) < 79)%Z).
        { apply Z.log2_lt_pow2; [nia|].
          change (2 ^ 79)%Z with (2 ^ 26 * (2 ^ 27 * 2 ^ 26))%Z. nia. }
        lia.
      - rewrite <- Z.mul_assoc, Z.mul_comm. apply Z.mod_mul. lia. }
    rewrite Hexact.
    assert (Hdiv : (2 ^ 26 * q * N / 2 ^ 53 = I)%Z).
    { symmetry. apply Z.div_unique with
        (r := (2 ^ 26 * (q * N - I * 2 ^ 27))%Z).
      - change (2 ^ 53)%Z with (2 ^ 26 * 2 ^ 27)%Z. nia.
      - change (2 ^ 53)%Z with (2 ^ 26 * 2 ^ 27)%Z. ring. }
    rewrite Hdiv. subst I. apply Nat2Z.id.
Qed.

Lemma candidate_set_small userMessage :
  (Z.of_nat (length (candidate_set userMessage)) <= 2 ^ 26)%Z.
Proof.
  unfold candidate_set.
  destruct (includes "你好" userMessage); [simpl; lia|].
  destruct (includes "故事" userMessage); [simpl; lia|].
  destruct (includes "名字" userMessage); simpl; lia.
Qed.

(** No canned reply is dead: for every message, each element of the
    candidate set of its first keyword (or of the default set) is the reply
    of [generateSpiritResponse] for some value of [Math.random()]. *)
Theorem every_candidate_reachable (userMessage reply : string) :
  In reply (candidate_set userMessage) ->
  exists draw,
    valid_draw draw /\ generateSpiritResponse userMessage draw = VStr reply.
Proof.
  intros Hin. apply list_elem_of_In in Hin.
  apply list_elem_of_lookup_1 in Hin. destruct Hin as [i Hi].
  assert (Hlt : i < length (candidate_set userMessage)).
  { apply lookup_lt_is_Some. eexists. exact Hi. }
  destruct (random_index_onto _ i Hlt (candidate_set_small userMessage))
    as [draw [Hvalid Hdraw]].
  exists draw. split; [exact Hvalid|].
  rewrite generateSpiritResponse_candidates, Hdraw. unfold index.
  rewrite Hi. reflexivity.
Qed.

Lemma every_candidate_reachable_witness :
  exists draw,
    valid_draw draw /\
    generateSpiritResponse "你叫什么名字" draw
    = VStr "名字？我有很多名字，你叫我什么都可以。".
Proof.
  apply every_candidate_reachable. right. left. reflexivity.
Defined.

(** ** Answers that settle a field of the page *)

(** *** The health probe *)

(** After a successful health probe the gateway stays available: whatever
    events follow, the client reference is never cleared, and using a
    captured or an uploaded photo sends an identify request instead of
    scheduling the local reply. *)
Theorem successful_probe_keeps_gateway (nav : navigator)
    (before after : list event) (n : nat) (client : APIClient)
    (fetched : completion response) :
  pending (session nav before) !! n = Some (initAPI_await client) ->
  probe_succeeded fetched = true ->
  let s := run (step (session nav before) (settled n (Fetched fetched))) after in
  apiClient s = Some default_client /\
  requests (exec usePhoto s)
  = requests s ++ [sent (identifyImage default_client (capturedPhoto_src s) "")] /\
  (forall imageData,
     requests (exec (useUploadedPhoto imageData) s)
     = requests s ++ [sent (identifyImage default_client imageData "")]).
Proof.
  intros Hn Hok s.
  destruct (probe_pending_client nav before n client Hn) as [Hc Hw].
  assert (Hs : apiClient s = Some default_client).
  { subst s.
    rewrite (step_settled _ n _ (Fetched fetched)
               (initAPI_continue client fetched) Hn eq_refl).
    rewrite initAPI_continue_succeeded by exact Hok.
    destruct (run_written_by_probe
                (upd_pending (delete n) (session nav before)) after)
      as [Hle Hfield].
    rewrite Hfield by lia. exact Hc. }
  split; [exact Hs|]. split.
  - pose proof (usePhoto_effect s) as He. cbv zeta in He. rewrite Hs in He.
    destruct He as [_ [Hr _]]. exact Hr.
  - intros imageData.
    pose proof (useUploadedPhoto_effect s imageData) as He. cbv zeta in He.
    rewrite Hs in He. destruct He as [_ [Hr _]]. exact Hr.
Qed.

Lemma successful_probe_keeps_gateway_witness :
  let after := [ click_cameraFab "data:,"; click_use_photo_btn;
                 visibilitychange_document true ] in
  apiClient (run (step (session full_navigator [])
                       (settled 0 (Fetched health_ok))) after)
  = Some default_client.
Proof.
  intros after.
  destruct (successful_probe_keeps_gateway full_navigator [] after 0
              default_client health_ok) as [Hs _];
    [reflexivity | reflexivity | exact Hs].
Defined.

(** *** The camera request *)

Lemma visibilitychange_written_by hidden :
  respects (written_by is_camera_task no_stream) (visibilitychange hidden).
Proof.
  intros s. rewrite visibilitychange_exec. unfold no_stream.
  destruct (currentStream s) as [tracks|] eqn:Hs.
  - split; [exact (le_n _) | intros _; cbn; rewrite Hs; reflexivity].
  - reflexivity.
Qed.

Lemma beforeunload_written_by :
  respects (written_by is_camera_task no_stream) beforeunload.
Proof.
  intros s. rewrite beforeunload_exec. unfold no_stream.
  destruct (currentStream s) as [tracks|] eqn:Hs.
  - split; [exact (le_n _) | intros _; cbn; rewrite Hs; reflexivity].
  - reflexivity.
Qed.

Lemma run_written_by_camera s events :
  written_by is_camera_task no_stream s (run s events).
Proof.
  apply (run_respects_at (written_by is_camera_task no_stream)).
  - intros f. field_write.
  - intros frame. respects_by field_write.
  - split; [|split]; respects_by field_write.
  - respects_by field_write.
  - intros l. destruct l; respects_by field_write.
  - intros files. respects_by field_write.
  - exact visibilitychange_written_by.
  - exact beforeunload_written_by.
  - field_callbacks.
Qed.

Lemma handleCapture_without_stream frame s :
  no_stream s = true ->
  step s (click_cameraFab frame)
  = upd_alerts (fun _ => alerts s ++ ["相机未初始化，无法拍照"]) s.
Proof.
  unfold no_stream. intros Hs. simpl step.
  unfold handleCapture, exec, and_then, read, alert, write. simpl.
  destruct (currentStream s); [discriminate|]. destruct s. reflexivity.
Qed.

(** The camera is requested at most once and never again.  When the
    browser has no [getUserMedia], or when the request is refused, there is
    no stream for the rest of the session whatever events follow, and a
    click on the capture button only shows the notice that the camera is
    not initialised: the preview overlay and the captured photo are left as
    they are. *)
Theorem camera_failure_is_permanent (nav : navigator) :
  (mediaDevices nav = false ->
   forall events frame,
     let s := session nav events in
     currentStream s = None /\
     step s (click_cameraFab frame)
     = upd_alerts (fun _ => alerts s ++ ["相机未初始化，无法拍照"]) s) /\
  (forall before n error after frame,
     pending (session nav before) !! n = Some initCamera_await ->
     let s := run (step (session nav before)
                        (settled n (Media (Throw error)))) after in
     currentStream s = None /\
     step s (click_cameraFab frame)
     = upd_alerts (fun _ => alerts s ++ ["相机未初始化，无法拍照"]) s).
Proof.
  assert (Hnone : forall s, no_stream s = true -> currentStream s = None).
  { intros s. unfold no_stream. destruct (currentStream s); congruence. }
  split.
  - intros Hnav events frame s.
    assert (Hs : no_stream s = true).
    { destruct (run_written_by_camera (after_load nav) events) as [Hle Hfield].
      change (run (after_load nav) events) with s in Hle, Hfield.
      assert (H0 : waiting is_camera_task (after_load nav) = 0 /\
                   no_stream (after_load nav) = true).
      { destruct nav as [[] [] []]; try discriminate Hnav; split; reflexivity. }
      destruct H0 as [H0 Hl]. rewrite Hfield by lia. exact Hl. }
    split; [apply Hnone; exact Hs | apply handleCapture_without_stream; exact Hs].
  - intros before n error after frame Hn s.
    assert (Hs : no_stream s = true).
    { pose proof (waiting_resumed is_camera_task _ n _ Hn) as Hw.
      cbn [is_camera_task] in Hw.
      destruct (run_written_by_camera (after_load nav) before) as [Hle Hfield].
      change (run (after_load nav) before) with (session nav before)
        in Hle, Hfield.
      assert (H0 : waiting is_camera_task (after_load nav) <= 1 /\
                   no_stream (after_load nav) = true)
        by (destruct nav as [[] [] []]; split;
            first [reflexivity | vm_compute; lia]).
      destruct H0 as [H0 Hl].
      assert (Hb : no_stream (session nav before) = true)
        by (rewrite Hfield by lia; exact Hl).
      subst s.
      rewrite (step_settled _ n _ (Media (Throw error))
                 (initCamera_continue (Throw error)) Hn eq_refl).
      set (failed := exec (initCamera_continue (Throw error))
                       (upd_pending (delete n) (session nav before))).
      assert (Hf : no_stream failed = true /\ waiting is_camera_task failed = 0).
      { subst failed. unfold initCamera_continue.
        destruct (_ || _); [|destruct (String.eqb _ _)];
          (split; [exact Hb | cbn; change (waiting is_camera_task
             (upd_pending (delete n) (session nav before)) = 0); lia]). }
      destruct Hf as [Hf Hw0].
      destruct (run_written_by_camera failed after) as [Hle' Hfield'].
      rewrite Hfield' by lia. exact Hf. }
    split; [apply Hnone; exact Hs | apply handleCapture_without_stream; exact Hs].
Qed.

Lemma camera_failure_is_permanent_witness :
  let s := run (step (session full_navigator [])
                     (settled 1 (Media (Throw (mkExn "NotAllowedError"
                                                     "Permission denied")))))
               [ click_awakenBtn; visibilitychange_document false ] in
  currentStream s = None.
Proof.
  intros s.
  destruct (camera_failure_is_permanent full_navigator) as [_ Hrefused].
  destruct (Hrefused [] 1 (mkExn "NotAllowedError" "Permission denied")
              [ click_awakenBtn; visibilitychange_document false ] "data:,"
              eq_refl) as [Hs _].
  exact Hs.
Defined.

(** *** The position request *)

Lemma run_written_by_position s events :
  written_by is_position_task locationText s (run s events).
Proof.
  apply (run_respects_at (written_by is_position_task locationText)).
  - intros f. field_write.
  - intros frame. respects_by field_write.
  - split; [|split]; respects_by field_write.
  - respects_by field_write.
  - intros l. destruct l; respects_by field_write.
  - intros files. respects_by field_write.
  - intros hidden. respects_by field_write.
  - respects_by field_write.
  - field_callbacks.
Qed.

Lemma getCurrentPosition_continue_text r s :
  exec (getCurrentPosition_continue r) s
  = upd_locationText (fun _ => position_text r) s.
Proof.
  destruct r as [code|[latitude longitude]]; [|reflexivity].
  destruct code as [|[|[|[|code]]]]; reflexivity.
Qed.

(** The location label is written at load time and by the one position
    answer, never afterwards.  Without geolocation support it reads the
    geolocation notice for the whole session, also when the camera is
    unsupported too: the camera notice written just before is overwritten
    at once.  With geolocation support and no camera support it reads the
    camera notice until the position answer arrives; from then on it reads
    the coordinates, or the message of the error code, whatever events
    follow. *)
Theorem location_label (nav : navigator) :
  (geolocation nav = false ->
   forall events, locationText (session nav events) = "地理位置不支持") /\
  (forall events n,
     mediaDevices nav = false ->
     pending (session nav events) !! n = Some getCurrentPosition_callback ->
     locationText (session nav events) = "相机功能不可用") /\
  (forall before n r after,
     pending (session nav before) !! n = Some getCurrentPosition_callback ->
     locationText (run (step (session nav before) (settled n (Located r))) after)
     = position_text r).
Proof.
  assert (Hload : waiting is_position_task (after_load nav) <= 1)
    by (destruct nav as [[] [] []]; vm_compute; lia).
  split; [|split].
  - intros Hnav events.
    destruct (run_written_by_position (after_load nav) events) as [Hle Hfield].
    change (run (after_load nav) events) with (session nav events) in Hle, Hfield.
    assert (H0 : waiting is_position_task (after_load nav) = 0 /\
                 locationText (after_load nav) = "地理位置不支持").
    { destruct nav as [[] [] []]; try discriminate Hnav; split; reflexivity. }
    destruct H0 as [H0 Hl]. rewrite Hfield by lia. exact Hl.
  - intros events n Hnav Hn.
    pose proof (waiting_resumed is_position_task _ n _ Hn) as Hw.
    cbn [is_position_task] in Hw.
    destruct (run_written_by_position (after_load nav) events) as [Hle Hfield].
    change (run (after_load nav) events) with (session nav events) in Hle, Hfield.
    rewrite Hfield by lia.
    destruct nav as [[] [] defined]; try discriminate Hnav;
      [destruct defined; reflexivity|].
    exfalso. assert (H0 : waiting is_position_task
                            (after_load {| mediaDevices := false;
                                           geolocation := false;
                                           APIClient_defined := defined |}) = 0)
      by (destruct defined; reflexivity). lia.
  - intros before n r after Hn.
    pose proof (waiting_resumed is_position_task _ n _ Hn) as Hw.
    cbn [is_position_task] in Hw.
    destruct (run_written_by_position (after_load nav) before) as [Hle _].
    change (run (after_load nav) before) with (session nav before) in Hle.
    rewrite (step_settled _ n _ (Located r) (getCurrentPosition_continue r)
               Hn eq_refl).
    rewrite getCurrentPosition_continue_text.
    destruct (run_written_by_position
                (upd_locationText (fun _ => position_text r)
                   (upd_pending (delete n) (session nav before))) after)
      as [Hle' Hfield'].
    rewrite Hfield'; [reflexivity|].
    change (waiting is_position_task
              (upd_locationText (fun _ => position_text r)
                 (upd_pending (delete n) (session nav before))))
      with (waiting is_position_task
              (upd_pending (delete n) (session nav before))) in *.
    lia.
Qed.

Lemma location_label_witness :
  locationText
    (run (step (session full_navigator [])
               (settled 2 (Located (inr ("31.2304", "121.4737")))))
         [ click_awakenBtn ])
  = "31.2304, 121.4737".
Proof.
  destruct (location_label full_navigator) as [_ [_ Hanswer]].
  exact (Hanswer [] 2 (inr ("31.2304", "121.4737")) [ click_awakenBtn ] eq_refl).
Defined.

(** ** The use-photo button over a session *)

#[local] Instance stays_rebound_preorder d : PreOrder (stays_rebound d).
Proof. split; [intros s H; exact H | intros a b c H1 H2 H; auto]. Qed.

#[local] Instance keeps_button_known_preorder : PreOrder keeps_button_known.
Proof. split; [intros s H; exact H | intros a b c H1 H2 H; auto]. Qed.

Ltac same_buttons := intros ? H; exact H.

Lemma handleFiles_callback_later (s : state) (imageData : string) :
  use_photo_btn s <> usePhotoBtn ->
  exec (handleFiles_callback imageData 0) s
  = upd_buttons (fun _ => buttons s ++ [[]])
      (upd_photoModal_active (fun _ => true)
         (upd_capturedPhoto_src (fun _ => imageData) s)).
Proof.
  intros Hdoc. destruct s. cbn [use_photo_btn] in Hdoc.
  cbv [exec handleFiles_callback and_then write read cloneNode
       parentNode_replaceChild addEventListener getElementById_use_photo_btn
       ret throw]. cbn.
  destruct (Nat.eqb_spec use_photo_btn0 usePhotoBtn) as [Heq|_];
    [contradiction | reflexivity].
Qed.

Lemma handleFiles_callback_other (s : state) (imageData : string) (index : nat) :
  index <> 0 ->
  exec (handleFiles_callback imageData index) s
  = upd_photoModal_active (fun _ => true)
      (upd_capturedPhoto_src (fun _ => imageData) s).
Proof. intros Hi. destruct index; [congruence | reflexivity]. Qed.

Lemma rebound_after_first s imageData :
  original_button s ->
  rebound imageData (exec (handleFiles_callback imageData 0) s).
Proof.
  intros [Hdoc Hl]. unfold exec.
  rewrite (handleFiles_callback_first s imageData Hdoc). cbn [snd].
  assert (Hlen : 0 < length (buttons s)).
  { apply lookup_lt_is_Some. eexists. exact Hl. }
  unfold rebound. cbn. rewrite length_app. cbn. unfold usePhotoBtn.
  split; [lia|]. split; [lia|].
  rewrite lookup_app_r by lia. rewrite Nat.sub_diag. reflexivity.
Qed.

Lemma rebound_after_later s d imageData :
  rebound d s -> rebound d (exec (handleFiles_callback imageData 0) s).
Proof.
  intros [Hdoc [Hlt Hl]]. rewrite (handleFiles_callback_later s imageData Hdoc).
  unfold rebound. cbn. rewrite length_app. cbn.
  split; [exact Hdoc|]. split; [lia|].
  rewrite lookup_app_l by exact Hlt. exact Hl.
Qed.

Lemma callback_stays_rebound d t a callback :
  resume t a = Some callback -> respects (stays_rebound d) callback.
Proof.
  intros Hr.
  destruct t; destruct a as [r|draw| |r|r|[data_url|]]; simpl in Hr; inversion Hr; subst;
    try solve [respects_by same_buttons].
  match goal with
  | |- respects _ (handleFiles_callback _ ?i) => destruct i as [|i]
  end; intros s H.
  - apply rebound_after_later. exact H.
  - rewrite handleFiles_callback_other by discriminate. exact H.
Qed.

Lemma callback_keeps_button_known t a callback :
  resume t a = Some callback -> respects keeps_button_known callback.
Proof.
  intros Hr.
  destruct t; destruct a as [r|draw| |r|r|[data_url|]]; simpl in Hr; inversion Hr; subst;
    try solve [respects_by same_buttons].
  match goal with
  | |- respects _ (handleFiles_callback _ ?i) => destruct i as [|i]
  end; intros s H.
  - destruct H as [H|[d H]].
    + right. exists imageData. apply rebound_after_first. exact H.
    + right. exists d. apply rebound_after_later. exact H.
  - rewrite handleFiles_callback_other by discriminate. exact H.
Qed.

Lemma run_stays_rebound d s events : stays_rebound d s (run s events).
Proof.
  apply (run_respects (stays_rebound d)).
  - intros f. same_buttons.
  - intros f. same_buttons.
  - intros frame. respects_by same_buttons.
  - split; [|split]; respects_by same_buttons.
  - respects_by same_buttons.
  - intros l. destruct l; respects_by same_buttons.
  - intros files. respects_by same_buttons.
  - intros hidden. respects_by same_buttons.
  - apply callback_stays_rebound.
  - intros _. respects_by same_buttons.
Qed.

Lemma click_when_rebound d s :
  rebound d s ->
  step s click_use_photo_btn
  = exec (useUploadedPhoto d) (exec (useUploadedPhoto d) s).
Proof.
  intros [_ [_ Hl]]. simpl step. unfold dispatch_click. rewrite Hl. reflexivity.
Qed.

Lemma session_button_known nav events : button_known (session nav events).
Proof.
  unfold session. apply (run_respects keeps_button_known).
  - intros f. same_buttons.
  - intros f. same_buttons.
  - intros frame. respects_by same_buttons.
  - split; [|split]; respects_by same_buttons.
  - respects_by same_buttons.
  - intros l. destruct l; respects_by same_buttons.
  - intros files. respects_by same_buttons.
  - intros hidden. respects_by same_buttons.
  - apply callback_keeps_button_known.
  - intros _. respects_by same_buttons.
  - left. destruct nav as [[] [] []]; split; reflexivity.
Qed.

(** In every session the use-photo button in the document carries either
    the single [usePhoto] listener registered at load time, as long as no
    uploaded file was previewed, or two listeners for one uploaded image;
    no event removes a listener or leaves the button without one. *)
Theorem use_photo_button_listeners (nav : navigator) (events : list event) :
  let s := session nav events in
  use_photo_listeners s = [usePhoto_listener] \/
  exists imageData,
    use_photo_listeners s
    = [ useUploadedPhoto_listener imageData;
        useUploadedPhoto_listener imageData ].
Proof.
  intros s. subst s. unfold use_photo_listeners.
  destruct (session_button_known nav events) as [[Hdoc Hl]|[d [_ [_ Hl]]]].
  - left. rewrite Hdoc, Hl. reflexivity.
  - right. exists d. rewrite Hl. reflexivity.
Qed.

(** Once an uploaded image has been bound to the use-photo button it stays
    bound for the rest of the session: whatever events follow, later
    uploads and camera captures included, a click on the button calls
    [useUploadedPhoto] twice with that first image and never [usePhoto], so
    a frame captured afterwards is not what is sent. *)
Theorem rebound_button_is_permanent (s : state) (imageData : string)
    (events : list event) (frame : string) :
  rebound imageData s ->
  let s' := step (run s events) (click_cameraFab frame) in
  rebound imageData (run s events) /\
  step s' click_use_photo_btn
  = exec (useUploadedPhoto imageData) (exec (useUploadedPhoto imageData) s').
Proof.
  intros H s'.
  pose proof (run_stays_rebound imageData s events H) as Hrun.
  split; [exact Hrun|].
  apply click_when_rebound. subst s'.
  change (step (run s events) (click_cameraFab frame))
    with (run (run s events) [click_cameraFab frame]).
  apply run_stays_rebound. exact Hrun.
Qed.

Lemma rebound_button_is_permanent_witness :
  let s := session bare_navigator
             [ drop_dropZone [first_file];
               settled 1 (Loaded (Some first_data));
               settled 1 Elapsed ] in
  rebound first_data
    (run s [ click_closeModal; drop_dropZone [second_file];
             settled 1 (Loaded (Some second_data)); settled 1 Elapsed ]).
Proof.
  intros s.
  assert (H : rebound first_data s).
  { unfold rebound. split; [discriminate|]. split; [vm_compute; lia|]. reflexivity. }
  exact (proj1 (rebound_button_is_permanent s first_data
                  [ click_closeModal; drop_dropZone [second_file];
                    settled 1 (Loaded (Some second_data)); settled 1 Elapsed ]
                  "data:," H)).
Defined.

(** ** The two screens and the overlay *)

#[local] Instance keeps_one_screen_preorder : PreOrder keeps_one_screen.
Proof. split; [intros s H; exact H | intros a b c H1 H2 H; auto]. Qed.

Ltac same_screens := intros ? H; exact H.

Lemma listener_forces_chat l s :
  let s' := exec (listener_body l) s in
  chatScreen_active s' = true /\ homeScreen_active s' = false /\
  photoModal_active s' = false.
Proof.
  destruct l as [|imageData]; simpl listener_body;
    unfold usePhoto, useUploadedPhoto, exec, and_then, read, write, addMessage, eval,
      closePhotoModal, showChatScreen, setTimeout, await; cbn;
    match goal with
    | |- context [String.eqb ?x ""] => destruct (String.eqb x "")
    end; cbn; destruct (apiClient s); cbn; repeat split.
Qed.

Lemma callback_keeps_one_screen t a callback :
  resume t a = Some callback -> respects keeps_one_screen callback.
Proof.
  intros Hr.
  destruct t; destruct a as [r|draw| |r|r|[data_url|]];
    simpl in Hr; inversion Hr; subst; respects_by same_screens.
Qed.

Lemma session_one_screen nav events : one_screen (session nav events).
Proof.
  unfold session. apply (run_respects keeps_one_screen).
  - intros f. same_screens.
  - intros f. same_screens.
  - intros frame. respects_by same_screens.
  - split; [|split].
    + intros s _. reflexivity.
    + intros s _. reflexivity.
    + respects_by same_screens.
  - respects_by same_screens.
  - intros l s _. destruct (listener_forces_chat l s) as [Hc [Hh _]].
    unfold one_screen. rewrite Hc, Hh. reflexivity.
  - intros files. respects_by same_screens.
  - intros hidden. respects_by same_screens.
  - exact callback_keeps_one_screen.
  - intros _. respects_by same_screens.
  - destruct nav as [[] [] []]; reflexivity.
Qed.

(** In every session exactly one of the home screen and the chat screen is
    shown, whatever events and answers arrive; and a click on the use-photo
    button always ends with the overlay closed and the chat screen shown,
    whichever screen was shown before and whichever listeners the button
    carries. *)
Theorem screens_exclusive (nav : navigator) (events : list event) :
  let s := session nav events in
  let used := step s click_use_photo_btn in
  homeScreen_active s = negb (chatScreen_active s) /\
  chatScreen_active used = true /\
  homeScreen_active used = false /\
  photoModal_active used = false.
Proof.
  intros s used. subst used s. split; [apply session_one_screen|].
  simpl step. unfold dispatch_click.
  destruct (session_button_known nav events) as [[Hdoc Hl]|[d [_ [_ Hl]]]].
  - rewrite Hdoc, Hl. cbn [default fold_left].
    apply (listener_forces_chat usePhoto_listener).
  - rewrite Hl. cbn [default fold_left].
    apply (listener_forces_chat (useUploadedPhoto_listener d)).
Qed.

(** ** Keywords anywhere in the message *)

Lemma startsWith_app key post : startsWith key (key +:+ post) = true.
Proof.
  induction key as [|c key IH]; [reflexivity|].
  simpl. rewrite Ascii.eqb_refl. exact IH.
Qed.

Lemma includes_anywhere key pre post :
  includes key (pre +:+ key +:+ post) = true.
Proof.
  induction pre as [|c pre IH].
  - simpl. destruct (key +:+ post) eqn:E; simpl.
    + destruct key; [reflexivity | discriminate E].
    + rewrite <- E, startsWith_app. reflexivity.
  - simpl. rewrite IH. apply orb_true_r.
Qed.

(** Keywords are found anywhere in the message: whatever text surrounds
    the greeting keyword the reply is a greeting; and when the message does
    not contain the greeting keyword, whatever text surrounds the story
    keyword the reply is from the story set. *)
Theorem keyword_anywhere (pre post : string) (draw : Z) :
  valid_draw draw ->
  (exists reply,
     generateSpiritResponse (pre +:+ "你好" +:+ post) draw = VStr reply /\
     In reply greeting_set) /\
  (includes "你好" (pre +:+ "故事" +:+ post) = false ->
   exists reply,
     generateSpiritResponse (pre +:+ "故事" +:+ post) draw = VStr reply /\
     In reply story_set).
Proof.
  intros Hd. split.
  - destruct (local_reply (pre +:+ "你好" +:+ post) draw Hd) as [reply [Heq Hin]].
    exists reply. split; [exact Heq|].
    unfold candidate_set in Hin. rewrite includes_anywhere in Hin. exact Hin.
  - intros Hg.
    destruct (local_reply (pre +:+ "故事" +:+ post) draw Hd) as [reply [Heq Hin]].
    exists reply. split; [exact Heq|].
    unfold candidate_set in Hin. rewrite Hg, includes_anywhere in Hin.
    exact Hin.
Qed.

Lemma keyword_anywhere_witness :
  exists reply,
    generateSpiritResponse ("地灵，" +:+ "你好" +:+ "呀") 0 = VStr reply /\
    In reply greeting_set.
Proof.
  destruct (keyword_anywhere "地灵，" "呀" 0) as [Hgreeting _].
  - unfold valid_draw. lia.
  - exact Hgreeting.
Defined.

(** ** Hiding and showing the page *)

Lemma set_enabled_round_trip tracks :
  Forall (fun t => kind t = "video" -> enabled t = true) tracks ->
  map (set_enabled true) (map (set_enabled false) tracks) = tracks.
Proof.
  induction 1 as [|t tracks Ht _ IH]; [reflexivity|].
  simpl. rewrite IH. f_equal. unfold set_enabled.
  destruct (String.eqb_spec (kind t) "video") as [Hk|Hk]; simpl.
  - rewrite Hk. simpl. destruct t as [k e st]. simpl in *. subst k.
    rewrite (Ht eq_refl). reflexivity.
  - destruct (String.eqb_spec (kind t) "video"); [contradiction | reflexivity].
Qed.

(** Hiding the page and showing it again gives back the state it started
    from, provided every video track was enabled, as the tracks of a stream
    fresh from [getUserMedia] are; a video track that was disabled before
    comes back enabled. *)
Theorem hide_then_show (s : state) :
  let hidden := step s (visibilitychange_document true) in
  let shown := step hidden (visibilitychange_document false) in
  (forall tracks,
     currentStream s = Some tracks ->
     Forall (fun t => kind t = "video" -> enabled t = true) tracks ->
     shown = s) /\
  (currentStream s = None -> shown = s) /\
  (forall tracks,
     currentStream s = Some tracks ->
     currentStream shown = Some (map (set_enabled true) tracks)).
Proof.
  intros hidden shown. subst shown hidden. simpl step.
  rewrite !visibilitychange_exec.
  split; [|split].
  - intros tracks Hs Hall. rewrite Hs. cbn.
    rewrite set_enabled_round_trip by exact Hall.
    destruct s. cbn in *. subst. reflexivity.
  - intros Hs. rewrite Hs. cbn. rewrite Hs. reflexivity.
  - intros tracks Hs. rewrite Hs. cbn. f_equal.
    rewrite map_map. apply map_ext. intros t. unfold set_enabled.
    destruct (String.eqb (kind t) "video") eqn:Hk; simpl; rewrite ?Hk; reflexivity.
Qed.

Lemma hide_then_show_witness :
  let s := upd_currentStream (fun _ => Some (map live ["video"; "audio"]))
             initial_state in
  step (step s (visibilitychange_document true))
       (visibilitychange_document false) = s.
Proof.
  intros s.
  destruct (hide_then_show s) as [Hround _].
  apply (Hround (map live ["video"; "audio"])); [reflexivity|].
  repeat constructor.
Defined.
